(** * A* path finding (Elite framework, [EAStar.h]): shallow embedding

    The development follows [Elite::AStar<T_NodeType, T_ConnectionType>]:
    the [NodeRecord] structure with its two operators, [GetHeuristicCost]
    and [FindPath].

    Modelling conventions.
    - Node and connection pointers are addresses ([nat]); the null
      connection pointer of the start record is [None].
    - [float] costs and coordinates are exact integers ([Z]): no rounding,
      no NaN.
    - The graph interface [IGraph] (with the node and connection objects it
      owns) is not part of the header; it is a record of read accessors.
    - [AreEqual], the framework's tolerance comparison of two floats, is
      not part of the header either; it is a parameter of the development.
    - A member function runs in a state monad over the [AStar] object, so
      that what a call leaves behind can be stated.
    - The two [while] loops take fuel; [OutOfFuel] stands for a loop that is
      still running when the fuel is spent. *)

From Stdlib Require Import ZArith List Bool Lia Arith Sorted.
Import ListNotations.
Local Open Scope Z_scope.

(** ** Graph interface *)

Definition NodePtr := nat.
Definition ConnectionPtr := nat.
Definition Vector2 := (Z * Z)%type.
Definition Heuristic := Z -> Z -> Z.

(** What [FindPath] reads through [m_pGraph]: the graph's own methods
    ([GetNode], [GetNodeConnections], [GetNodePos]) and the getters of the
    node and connection objects stored in it. *)
Record IGraph := {
  GetNode : Z -> NodePtr;
  GetNodeConnections : Z -> list ConnectionPtr;
  GetNodePos : NodePtr -> Vector2;
  GetIndex : NodePtr -> Z;
  GetFrom : ConnectionPtr -> Z;
  GetTo : ConnectionPtr -> Z;
  GetCost : ConnectionPtr -> Z
}.

(** The data members of the [AStar] object; [m_pGraph] stands for the
    pointer together with the graph it points to. *)
Record AStar := {
  m_pGraph : IGraph;
  m_HeuristicFunction : Heuristic
}.

(** ** State monad over the object *)

Definition M (A : Type) : Type := AStar -> A * AStar.

Definition ret {A : Type} (a : A) : M A := fun this => (a, this).

Definition bind {A B : Type} (m : M A) (k : A -> M B) : M B :=
  fun this => let (a, this') := m this in k a this'.

Definition gets {A : Type} (f : AStar -> A) : M A := fun this => (f this, this).

Notation "x <- m ;; k" := (bind m (fun x => k))
  (at level 61, m at next level, right associativity).

Definition value {A : Type} (m : M A) (this : AStar) : A := fst (m this).
Definition after {A : Type} (m : M A) (this : AStar) : AStar := snd (m this).

(** ** Outcomes of a call *)

Inductive Result (A : Type) : Type :=
| Ok (a : A)
| AssertionFailed
| NullDereference
| OutOfFuel.

Arguments Ok {A} a.
Arguments AssertionFailed {A}.
Arguments NullDereference {A}.
Arguments OutOfFuel {A}.

(** ** NodeRecord *)

Record NodeRecord := {
  pNode : NodePtr;
  pConnection : option ConnectionPtr;
  gCost : Z;
  fCost : Z
}.

Definition ptr_eqb (a b : option ConnectionPtr) : bool :=
  match a, b with
  | None, None => true
  | Some x, Some y => Nat.eqb x y
  | _, _ => false
  end.

Section AStarSearch.

(** [AreEqual(a, b)] of the framework's math utilities. *)
Variable AreEqual : Z -> Z -> bool.

(** [NodeRecord::operator==] *)
Definition NodeRecord_eq (r other : NodeRecord) : bool :=
  Nat.eqb (pNode r) (pNode other)
  && ptr_eqb (pConnection r) (pConnection other)
  && AreEqual (gCost r) (gCost other)
  && AreEqual (fCost r) (fCost other).

(** [NodeRecord::operator<] *)
Definition NodeRecord_lt (r other : NodeRecord) : bool :=
  fCost r <? fCost other.

(** ** GetHeuristicCost *)

Definition GetHeuristicCost (pStartNode pEndNode : NodePtr) : M Z :=
  endPos <- gets (fun this => GetNodePos (m_pGraph this) pEndNode) ;;
  startPos <- gets (fun this => GetNodePos (m_pGraph this) pStartNode) ;;
  let toDestination : Vector2 :=
    (fst endPos - fst startPos, snd endPos - snd startPos) in
  h <- gets m_HeuristicFunction ;;
  ret (h (Z.abs (fst toDestination)) (Z.abs (snd toDestination))).

(** ** FindPath, step 2.a: the record with the lowest F score

    [currentRecord = openList[0]], then one pass over the whole list that
    replaces [currentRecord] on a strictly smaller [fCost]. *)
Definition lowestF (openList : list NodeRecord) (first : NodeRecord) : NodeRecord :=
  fold_left
    (fun currentRecord recordFromList =>
       if fCost recordFromList <? fCost currentRecord
       then recordFromList else currentRecord)
    openList first.

(** ** Step 2.d: scan of the closed list

    Returns [isInClosed] and the closed list after the scan. A record of
    the target with a higher [gCost] is erased and the scan stops; a
    record of the target that is not more expensive sets the flag and the
    scan goes on. *)
Fixpoint scanClosed (pGetToNode : NodePtr) (g : Z) (closedList : list NodeRecord)
  : bool * list NodeRecord :=
  match closedList with
  | [] => (false, [])
  | r :: rest =>
      if Nat.eqb (pNode r) pGetToNode then
        if gCost r >? g then (true, rest)
        else (true, r :: snd (scanClosed pGetToNode g rest))
      else
        let (isInClosed, rest') := scanClosed pGetToNode g rest in
        (isInClosed, r :: rest')
  end.

(** ** Step 2.e: scan of the open list

    Stops at the first record of the target, erasing it when it is more
    expensive. *)
Fixpoint scanOpen (pGetToNode : NodePtr) (g : Z) (openList : list NodeRecord)
  : bool * list NodeRecord :=
  match openList with
  | [] => (false, [])
  | r :: rest =>
      if Nat.eqb (pNode r) pGetToNode then
        (true, if gCost r >? g then rest else r :: rest)
      else
        let (isInOpen, rest') := scanOpen pGetToNode g rest in
        (isInOpen, r :: rest')
  end.

(** ** Steps 2.c to 2.f: the body of the loop over [connectionList] *)
Definition processConnection (pGoalNode : NodePtr) (currentRecord : NodeRecord)
    (lists : list NodeRecord * list NodeRecord) (pConn : ConnectionPtr)
  : M (list NodeRecord * list NodeRecord) :=
  let (openList, closedList) := lists in
  cost <- gets (fun this => GetCost (m_pGraph this) pConn) ;;
  let g := cost + gCost currentRecord in
  getToIdx <- gets (fun this => GetTo (m_pGraph this) pConn) ;;
  pGetToNode <- gets (fun this => GetNode (m_pGraph this) getToIdx) ;;
  let (isInClosed, closedList') := scanClosed pGetToNode g closedList in
  if isInClosed then ret (openList, closedList')
  else
    let (isInOpen, openList') := scanOpen pGetToNode g openList in
    if isInOpen then ret (openList', closedList')
    else
      h <- GetHeuristicCost pGetToNode pGoalNode ;;
      let newRecord :=
        {| pNode := pGetToNode; pConnection := Some pConn;
           gCost := g; fCost := g + h |} in
      ret (openList' ++ [newRecord], closedList').

Fixpoint expand (pGoalNode : NodePtr) (currentRecord : NodeRecord)
    (connectionList : list ConnectionPtr)
    (lists : list NodeRecord * list NodeRecord)
  : M (list NodeRecord * list NodeRecord) :=
  match connectionList with
  | [] => ret lists
  | pConn :: rest =>
      lists' <- processConnection pGoalNode currentRecord lists pConn ;;
      expand pGoalNode currentRecord rest lists'
  end.

(** ** Step 2.g: [std::find] with [operator==], then [erase]

    [None] is [it == openList.end()], the case the assertion excludes. *)
Fixpoint findErase (currentRecord : NodeRecord) (openList : list NodeRecord)
  : option (list NodeRecord) :=
  match openList with
  | [] => None
  | r :: rest =>
      if NodeRecord_eq r currentRecord then Some rest
      else option_map (cons r) (findErase currentRecord rest)
  end.

(** ** Step 2: the search loop

    The result is [currentRecord] and [closedList] as the loop leaves
    them, whether by [break] or because the open list is empty. *)
Fixpoint searchLoop (fuel : nat) (pGoalNode : NodePtr)
    (openList closedList : list NodeRecord) (currentRecord : NodeRecord)
  : M (Result (NodeRecord * list NodeRecord)) :=
  match fuel with
  | O => ret OutOfFuel
  | S fuel' =>
      match openList with
      | [] => ret (Ok (currentRecord, closedList))
      | first :: _ =>
          let currentRecord := lowestF openList first in
          if Nat.eqb (pNode currentRecord) pGoalNode
          then ret (Ok (currentRecord, closedList))
          else
            idx <- gets (fun this => GetIndex (m_pGraph this) (pNode currentRecord)) ;;
            connectionList <- gets (fun this => GetNodeConnections (m_pGraph this) idx) ;;
            lists <- expand pGoalNode currentRecord connectionList (openList, closedList) ;;
            match findErase currentRecord (fst lists) with
            | None => ret AssertionFailed
            | Some openList' =>
                searchLoop fuel' pGoalNode openList' (snd lists ++ [currentRecord])
                  currentRecord
            end
      end
  end.

(** Steps 1 and 2 of [FindPath]. *)
Definition search (fuel : nat) (pStartNode pGoalNode : NodePtr)
  : M (Result (NodeRecord * list NodeRecord)) :=
  h <- GetHeuristicCost pStartNode pGoalNode ;;
  let currentRecord :=
    {| pNode := pStartNode; pConnection := None; gCost := 0; fCost := h |} in
  searchLoop fuel pGoalNode [currentRecord] [] currentRecord.

(** ** Step 3: path reconstruction

    The inner [for] loop: the first closed record whose node is the source
    of the current record's connection. The connection pointer is
    dereferenced in the loop body, so an empty closed list reads nothing. *)
Fixpoint scanPredecessor (currentRecord : NodeRecord) (closedList : list NodeRecord)
  : M (Result (option NodeRecord)) :=
  match closedList with
  | [] => ret (Ok None)
  | r :: rest =>
      match pConnection currentRecord with
      | None => ret NullDereference
      | Some pConn =>
          prevNodeIdx <- gets (fun this => GetFrom (m_pGraph this) pConn) ;;
          pPrev <- gets (fun this => GetNode (m_pGraph this) prevNodeIdx) ;;
          if Nat.eqb (pNode r) pPrev then ret (Ok (Some r))
          else scanPredecessor currentRecord rest
      end
  end.

Fixpoint reconstruct (fuel : nat) (pStartNode : NodePtr)
    (currentRecord : NodeRecord) (closedList : list NodeRecord)
    (path : list NodePtr)
  : M (Result (list NodePtr)) :=
  match fuel with
  | O => ret OutOfFuel
  | S fuel' =>
      if Nat.eqb (pNode currentRecord) pStartNode then ret (Ok path)
      else
        found <- scanPredecessor currentRecord closedList ;;
        match found with
        | Ok (Some r) =>
            reconstruct fuel' pStartNode r closedList (path ++ [pNode r])
        | Ok None =>
            reconstruct fuel' pStartNode currentRecord closedList path
        | AssertionFailed => ret AssertionFailed
        | NullDereference => ret NullDereference
        | OutOfFuel => ret OutOfFuel
        end
  end.

(** ** FindPath

    [finish] is the end of the function on a reconstructed path:
    [std::reverse], then [return path]. *)
Definition finish (r : Result (list NodePtr)) : Result (list NodePtr) :=
  match r with
  | Ok path => Ok (rev path)
  | AssertionFailed => AssertionFailed
  | NullDereference => NullDereference
  | OutOfFuel => OutOfFuel
  end.

Definition FindPath (fuel : nat) (pStartNode pGoalNode : NodePtr)
  : M (Result (list NodePtr)) :=
  searched <- search fuel pStartNode pGoalNode ;;
  match searched with
  | Ok (currentRecord, closedList) =>
      path <- reconstruct fuel pStartNode currentRecord closedList [pGoalNode] ;;
      ret (finish path)
  | AssertionFailed => ret AssertionFailed
  | NullDereference => ret NullDereference
  | OutOfFuel => ret OutOfFuel
  end.

End AStarSearch.

(** ** Test fixtures

    A graph in the style of the framework's graph classes: nodes are
    numbered from 0 and node [i] has address [i]; a connection's address
    is its position in the order of insertion, and the connection list of
    a node keeps that order. *)

Record GraphConnection := {
  m_From : Z;
  m_To : Z;
  m_Cost : Z
}.

Definition noConnection : GraphConnection :=
  {| m_From := -1; m_To := -1; m_Cost := 0 |}.

Definition graphOf (positions : list Vector2) (connections : list GraphConnection)
  : IGraph :=
  {| GetNode := Z.to_nat;
     GetNodeConnections := fun idx =>
       filter (fun c => m_From (nth c connections noConnection) =? idx)
              (seq 0 (length connections));
     GetNodePos := fun p => nth p positions (0, 0);
     GetIndex := Z.of_nat;
     GetFrom := fun c => m_From (nth c connections noConnection);
     GetTo := fun c => m_To (nth c connections noConnection);
     GetCost := fun c => m_Cost (nth c connections noConnection) |}.

Definition connection (from to : nat) (cost : Z) : GraphConnection :=
  {| m_From := Z.of_nat from; m_To := Z.of_nat to; m_Cost := cost |}.

Definition zeroHeuristic : Heuristic := fun _ _ => 0.
Definition manhattan : Heuristic := fun x y => x + y.

(** The four-node scenario: A, B, C, D are nodes 0 to 3. *)
Definition scenarioGraph : IGraph :=
  graphOf [(0, 0); (0, 0); (0, 0); (0, 0)]
          [connection 0 1 1; connection 0 2 4; connection 1 2 1;
           connection 1 3 5; connection 2 3 1].

Definition scenario : AStar :=
  {| m_pGraph := scenarioGraph; m_HeuristicFunction := zeroHeuristic |}.

(** The same scenario with the connection lists of A and of B in either
    order of insertion. *)
Definition scenarioOrdered (swapA swapB : bool) : AStar :=
  {| m_pGraph :=
       graphOf [(0, 0); (0, 0); (0, 0); (0, 0)]
         ((if swapA then [connection 0 2 4; connection 0 1 1]
           else [connection 0 1 1; connection 0 2 4])
          ++ (if swapB then [connection 1 3 5; connection 1 2 1]
              else [connection 1 2 1; connection 1 3 5])
          ++ [connection 2 3 1]);
     m_HeuristicFunction := zeroHeuristic |}.

(** The scenario for reopening: S, P, Q, G are nodes 0 to 3, laid out on
    a line; S reaches P directly (cost 10) and through Q (cost 2), and only
    P reaches the goal G. The Manhattan estimate never exceeds the remaining
    cost. *)
Definition detourGraph : IGraph :=
  graphOf [(16, 0); (1, 0); (12, 0); (0, 0)]
          [connection 0 1 10; connection 0 2 1; connection 2 1 1;
           connection 1 3 20].

Definition detour : AStar :=
  {| m_pGraph := detourGraph; m_HeuristicFunction := manhattan |}.

(** A graph whose node 2 cannot be reached from node 0. *)
Definition islandGraph : IGraph :=
  graphOf [(0, 0); (0, 0); (0, 0)] [connection 0 1 1].

Definition island : AStar :=
  {| m_pGraph := islandGraph; m_HeuristicFunction := zeroHeuristic |}.

(** ** Vocabulary of the properties *)

(** [c] is one of the graph's connections. *)
Definition inGraph (g : IGraph) (c : ConnectionPtr) : Prop :=
  exists idx, In c (GetNodeConnections g idx).

(** Some connection of the graph leads from [u] to [v]. *)
Definition joins (g : IGraph) (u v : NodePtr) : Prop :=
  exists c, inGraph g c /\ GetNode g (GetFrom g c) = u /\ GetNode g (GetTo g c) = v.

Fixpoint validPath (g : IGraph) (path : list NodePtr) : Prop :=
  match path with
  | u :: rest =>
      match rest with
      | v :: _ => joins g u v /\ validPath g rest
      | [] => True
      end
  | [] => True
  end.

(** The node a connection leads to, and the cost of reaching it through
    that connection from the record under expansion (the locals
    [pGetToNode] and [gCost] of the loop body). *)
Definition targetOf (g : IGraph) (c : ConnectionPtr) : NodePtr :=
  GetNode g (GetTo g c).

Definition candidateCost (g : IGraph) (cur : NodeRecord) (c : ConnectionPtr) : Z :=
  GetCost g c + gCost cur.

(** A record's connection, when it has one, is a connection of the graph
    that leads to the record's node; a record without a connection is a
    record of the start node. *)
Definition recordSound (g : IGraph) (pStartNode : NodePtr) (r : NodeRecord) : Prop :=
  match pConnection r with
  | Some c => inGraph g c /\ GetNode g (GetTo g c) = pNode r
  | None => pNode r = pStartNode
  end.

(** No two records of the list are records of the same node. *)
Definition distinctNodes (l : list NodeRecord) : Prop := NoDup (map pNode l).

Definition nonNegativeCosts (g : IGraph) : Prop :=
  forall idx c, In c (GetNodeConnections g idx) -> 0 <= GetCost g c.

(** [cur] is the earliest record of [openList] among those of least
    [fCost]. *)
Definition firstLowest (cur : NodeRecord) (openList : list NodeRecord) : Prop :=
  exists earlier later,
    openList = earlier ++ cur :: later
    /\ (forall r, In r earlier -> fCost cur < fCost r)
    /\ (forall r, In r later -> fCost cur <= fCost r).

(** The one value of the return type that could stand for a failed search:
    the empty sequence. *)
Definition reportsNoPath (r : Result (list NodePtr)) : Prop := r = Ok [].

(** The search loop ran out of open records without selecting the goal. *)
Definition exhausted (AreEqual : Z -> Z -> bool) (fuel : nat)
    (pStartNode pGoalNode : NodePtr) (this : AStar) : Prop :=
  exists cur closedList,
    value (search AreEqual fuel pStartNode pGoalNode) this = Ok (cur, closedList)
    /\ pNode cur <> pGoalNode.

(** The search loop left through its [break], on a record of the goal. *)
Definition reached (AreEqual : Z -> Z -> bool) (fuel : nat)
    (pStartNode pGoalNode : NodePtr) (this : AStar) : Prop :=
  exists cur closedList,
    value (search AreEqual fuel pStartNode pGoalNode) this = Ok (cur, closedList)
    /\ pNode cur = pGoalNode.

(** ** Construction, and the vocabulary of the further properties *)

(** The constructor: both arguments are stored as they are. *)
Definition AStar_new (pGraph : IGraph) (hFunction : Heuristic) : AStar :=
  {| m_pGraph := pGraph; m_HeuristicFunction := hFunction |}.

(** The two lists after the loop over the connections of [cur]'s node
    (step 2.c to 2.f for one record). *)
Definition expansion (this : AStar) (goal : NodePtr) (cur : NodeRecord)
    (lists : list NodeRecord * list NodeRecord)
  : list NodeRecord * list NodeRecord :=
  value (expand goal cur
           (GetNodeConnections (m_pGraph this)
              (GetIndex (m_pGraph this) (pNode cur)))
           lists) this.

(** The estimate from a node to the goal, as [GetHeuristicCost] gives it. *)
Definition estimate (this : AStar) (goal n : NodePtr) : Z :=
  value (GetHeuristicCost n goal) this.

(** A record carries the total its two costs define. *)
Definition recordPriced (this : AStar) (goal : NodePtr) (r : NodeRecord) : Prop :=
  fCost r = gCost r + estimate this goal (pNode r).

(** The connections listed for a node start at that node. *)
Definition wellFormed (g : IGraph) : Prop :=
  forall p c, In c (GetNodeConnections g (GetIndex g p)) ->
              GetNode g (GetFrom g c) = p.

(** The estimate of a node is at most the cost of a connection leaving it
    plus the estimate of the node the connection leads to. *)
Definition consistent (this : AStar) (goal : NodePtr) : Prop :=
  forall p c, In c (GetNodeConnections (m_pGraph this)
                      (GetIndex (m_pGraph this) p)) ->
              estimate this goal p
              <= GetCost (m_pGraph this) c
                 + estimate this goal (targetOf (m_pGraph this) c).

(** Every connection of the graph leads to a node of [nodes]. *)
Definition leadsWithin (g : IGraph) (nodes : list NodePtr) : Prop :=
  forall idx c, In c (GetNodeConnections g idx) -> In (targetOf g c) nodes.

(** No node has a record in both lists. *)
Definition apart (openList closedList : list NodeRecord) : Prop :=
  forall x y, In x openList -> In y closedList -> pNode x <> pNode y.

(** The lists of a search: no node has two open records, two closed
    records, or one of each. *)
Definition separate (openList closedList : list NodeRecord) : Prop :=
  distinctNodes openList /\ distinctNodes closedList /\ apart openList closedList.

(** The source node of a record's connection. *)
Definition predecessorIn (g : IGraph) (pStartNode : NodePtr)
    (r : NodeRecord) (closedList : list NodeRecord) : Prop :=
  match pConnection r with
  | Some c => In (GetNode g (GetFrom g c)) (map pNode closedList)
  | None => pNode r = pStartNode
  end.

(** Every closed record has the source of its connection among the
    records closed before it (the start record, which has no connection,
    aside). *)
Inductive chained (g : IGraph) (pStartNode : NodePtr) : list NodeRecord -> Prop :=
| chained_nil : chained g pStartNode []
| chained_snoc closedList r :
    chained g pStartNode closedList ->
    predecessorIn g pStartNode r closedList ->
    chained g pStartNode (closedList ++ [r]).

(** The state of a search under a consistent heuristic, between two turns
    of the loop: the lists are separate and their records priced; no
    closed record has a larger [fCost] than an open one; every node is
    one of [nodes]; the source of every record's connection is closed;
    the closed list is chained. *)
Definition orderly (this : AStar) (pStartNode goal : NodePtr)
    (nodes : list NodePtr) (openList closedList : list NodeRecord)
    (cur0 : NodeRecord) : Prop :=
  separate openList closedList
  /\ Forall (recordPriced this goal) openList
  /\ Forall (recordPriced this goal) closedList
  /\ (forall y x, In y closedList -> In x openList -> fCost y <= fCost x)
  /\ (forall r, In r (openList ++ closedList) -> In (pNode r) nodes)
  /\ (forall x, In x openList ->
                predecessorIn (m_pGraph this) pStartNode x closedList)
  /\ chained (m_pGraph this) pStartNode closedList
  /\ predecessorIn (m_pGraph this) pStartNode cur0 closedList.

(** The order of the closed list under a consistent heuristic: it is
    sorted by [fCost] and no closed record has a larger [fCost] than an
    open record or than the record expanded last. *)
Definition inOrder (this : AStar) (goal : NodePtr)
    (openList closedList : list NodeRecord) (cur0 : NodeRecord) : Prop :=
  Forall (recordPriced this goal) openList
  /\ Forall (recordPriced this goal) closedList
  /\ (forall y x, In y closedList -> In x openList -> fCost y <= fCost x)
  /\ StronglySorted Z.le (map fCost closedList)
  /\ (forall y, In y closedList -> fCost y <= fCost cur0).

(** The same between two connections of the expansion of [cur]. *)
Definition expanding (this : AStar) (pStartNode goal : NodePtr)
    (nodes : list NodePtr) (cur : NodeRecord) (closedList : list NodeRecord)
    (lists : list NodeRecord * list NodeRecord) : Prop :=
  snd lists = closedList
  /\ distinctNodes (fst lists)
  /\ apart (fst lists) closedList
  /\ Forall (recordPriced this goal) (fst lists)
  /\ (forall x, In x (fst lists) -> fCost cur <= fCost x)
  /\ (forall x, In x (fst lists) -> In (pNode x) nodes)
  /\ (forall x, In x (fst lists) ->
                predecessorIn (m_pGraph this) pStartNode x (closedList ++ [cur]))
  /\ In cur (fst lists).

(** [turns] turns of the search loop lead from one state of the loop (open
    list, closed list, current record) to another: in each the open list
    is not empty, the record selected is not a record of the goal, and
    [std::find] succeeds. *)
Inductive runs (AreEqual : Z -> Z -> bool) (this : AStar) (goal : NodePtr)
  : nat -> list NodeRecord -> list NodeRecord -> NodeRecord ->
    list NodeRecord -> list NodeRecord -> NodeRecord -> Prop :=
| runs_none openList closedList cur0 :
    runs AreEqual this goal 0 openList closedList cur0 openList closedList cur0
| runs_turn turns first rest closedList cur0 openList' openList'' closedList'' cur0'' :
    Nat.eqb (pNode (lowestF (first :: rest) first)) goal = false ->
    findErase AreEqual (lowestF (first :: rest) first)
      (fst (expansion this goal (lowestF (first :: rest) first)
              (first :: rest, closedList)))
    = Some openList' ->
    runs AreEqual this goal turns openList'
      (snd (expansion this goal (lowestF (first :: rest) first)
              (first :: rest, closedList))
         ++ [lowestF (first :: rest) first])
      (lowestF (first :: rest) first)
      openList'' closedList'' cur0'' ->
    runs AreEqual this goal (S turns) (first :: rest) closedList cur0
      openList'' closedList'' cur0''.

(** The node [u] has a closed record that costs at most [bound]. *)
Definition settledBelow (bound : Z) (closedList : list NodeRecord) (u : NodePtr) : bool :=
  existsb (fun y => Nat.eqb (pNode y) u && (gCost y <=? bound)) closedList.

(** The nodes of [nodes] that have neither a record among [held] nor a
    closed record costing at most [bound]. *)
Definition freeNodes (bound : Z) (held closedList : list NodeRecord)
    (nodes : list NodePtr) : list NodePtr :=
  filter (fun u => negb (existsb (Nat.eqb u) (map pNode held))
                   && negb (settledBelow bound closedList u))
         nodes.

(** A state of the search in which the records [held] are open and cost
    at most [bound], and every other open record costs at least [bound]. *)
Definition poised (nodes : list NodePtr) (bound : Z) (held : list NodeRecord)
    (openList closedList : list NodeRecord) : Prop :=
  separate openList closedList
  /\ (forall r, In r (openList ++ closedList) -> In (pNode r) nodes)
  /\ (forall z, In z held -> In z openList /\ gCost z <= bound)
  /\ (forall r, In r openList -> In r held \/ bound <= gCost r).

(** The loop is about to be left, or to select one of the records
    [held]. *)
Definition stops (goal : NodePtr) (held openList : list NodeRecord) : Prop :=
  match openList with
  | [] => True
  | first :: _ =>
      pNode (lowestF openList first) = goal \/ In (lowestF openList first) held
  end.

(** A tolerance comparison: equal up to [eps]. *)
Definition within (eps : Z) (a b : Z) : bool := Z.abs (a - b) <=? eps.

(** A graph whose node 0 has a connection of negative cost to itself. *)
Definition loopGraph : IGraph :=
  graphOf [(0, 0); (0, 0)] [connection 0 1 1; connection 0 0 (-1)].

Definition loop : AStar := AStar_new loopGraph zeroHeuristic.

(** * Properties *)

Ltac run_monad := unfold value, after, bind, gets, ret in *; simpl in *.

Section Frame.

Variable AreEqual : Z -> Z -> bool.

(** ** Every operation leaves the object as it found it *)

Lemma processConnection_frame goal cur lists c this :
  snd (processConnection goal cur lists c this) = this.
Proof.
  destruct lists as [openList closedList].
  unfold processConnection. run_monad.
  destruct (scanClosed _ _ closedList) as [[|] closedList']; [reflexivity|].
  destruct (scanOpen _ _ openList) as [[|] openList']; reflexivity.
Qed.

Lemma expand_frame goal cur conns : forall lists this,
  snd (expand goal cur conns lists this) = this.
Proof.
  induction conns as [|c conns IH]; intros lists this; [reflexivity|].
  simpl. unfold bind.
  destruct (processConnection goal cur lists c this) as [lists' this'] eqn:E.
  rewrite IH.
  change this' with (snd (lists', this')). rewrite <- E.
  apply processConnection_frame.
Qed.

Lemma expand_cons goal cur c conns lists this :
  expand goal cur (c :: conns) lists this =
  expand goal cur conns (fst (processConnection goal cur lists c this)) this.
Proof.
  simpl. unfold bind.
  pose proof (processConnection_frame goal cur lists c this) as F.
  destruct (processConnection goal cur lists c this) as [lists' this'].
  simpl in F. subst this'. reflexivity.
Qed.

Lemma searchLoop_frame goal : forall fuel openList closedList cur this,
  snd (searchLoop AreEqual fuel goal openList closedList cur this) = this.
Proof.
  induction fuel as [|fuel IH]; intros openList closedList cur this; [reflexivity|].
  simpl. destruct openList as [|first rest]; [reflexivity|].
  destruct (Nat.eqb _ goal); [reflexivity|].
  unfold bind, gets.
  match goal with
  | |- context [expand ?g ?c ?l ?ls this] =>
      pose proof (expand_frame g c l ls this) as F;
      destruct (expand g c l ls this) as [lists this']
  end.
  simpl in F. subst this'.
  destruct (findErase AreEqual _ (fst lists)); [apply IH | reflexivity].
Qed.

Lemma search_frame fuel s g this :
  snd (search AreEqual fuel s g this) = this.
Proof. unfold search. run_monad. apply searchLoop_frame. Qed.

Lemma scanPredecessor_frame cur : forall closedList this,
  snd (scanPredecessor cur closedList this) = this.
Proof.
  induction closedList as [|r rest IH]; intros this; [reflexivity|].
  simpl. destruct (pConnection cur); [|reflexivity].
  run_monad. destruct (Nat.eqb _ _); [reflexivity | apply IH].
Qed.

Lemma reconstruct_frame s closedList : forall fuel cur path this,
  snd (reconstruct fuel s cur closedList path this) = this.
Proof.
  induction fuel as [|fuel IH]; intros cur path this; [reflexivity|].
  simpl. destruct (Nat.eqb _ s); [reflexivity|].
  unfold bind.
  pose proof (scanPredecessor_frame cur closedList this) as F.
  destruct (scanPredecessor cur closedList this) as [found this'].
  simpl in F. subst this'.
  destruct found as [[r|]| | |]; try reflexivity; apply IH.
Qed.

(** [FindPath] as the composition of its two phases, on values. *)
Lemma FindPath_value fuel s g this :
  value (FindPath AreEqual fuel s g) this =
  match value (search AreEqual fuel s g) this with
  | Ok (cur, closedList) =>
      finish (value (reconstruct fuel s cur closedList [g]) this)
  | AssertionFailed => AssertionFailed
  | NullDereference => NullDereference
  | OutOfFuel => OutOfFuel
  end.
Proof.
  unfold FindPath, value, bind.
  pose proof (search_frame fuel s g this) as F.
  destruct (search AreEqual fuel s g this) as [searched this'].
  simpl in F. subst this'. simpl.
  destruct searched as [[cur closedList]| | |]; try reflexivity.
  destruct (reconstruct fuel s cur closedList [g] this) as [path this'];
    reflexivity.
Qed.

End Frame.

(** ** The object after a call *)

(** C9: a call of [FindPath] leaves the [AStar] object, that is the graph
    behind [m_pGraph] and the stored heuristic, exactly as it was. *)
Theorem FindPath_no_side_effect (AreEqual : Z -> Z -> bool) (fuel : nat)
    (pStartNode pGoalNode : NodePtr) (this : AStar) :
  after (FindPath AreEqual fuel pStartNode pGoalNode) this = this.
Proof.
  unfold after, FindPath, bind.
  pose proof (search_frame AreEqual fuel pStartNode pGoalNode this) as F.
  destruct (search AreEqual fuel pStartNode pGoalNode this) as [searched this'].
  simpl in F. subst this'.
  destruct searched as [[cur closedList]| | |]; try reflexivity.
  pose proof (reconstruct_frame pStartNode closedList fuel cur [pGoalNode] this) as F.
  destruct (reconstruct fuel pStartNode cur closedList [pGoalNode] this) as [path this'].
  simpl in F. subst this'. reflexivity.
Qed.

(** ** Start equals goal *)

(** C7: when start and goal are the same node [n], [FindPath] returns the
    one-node sequence [n] (one check of each loop is all it takes). *)
Theorem FindPath_start_is_goal (AreEqual : Z -> Z -> bool) (fuel : nat)
    (n : NodePtr) (this : AStar) :
  value (FindPath AreEqual (S fuel) n n) this = Ok [n].
Proof.
  rewrite FindPath_value. unfold search. run_monad.
  rewrite Z.ltb_irrefl. simpl. rewrite Nat.eqb_refl. simpl.
  rewrite Nat.eqb_refl. reflexivity.
Qed.

(** ** Selection of the record to examine *)

Lemma firstLowest_fold (l : list NodeRecord) : forall seen acc,
  firstLowest acc seen ->
  firstLowest
    (fold_left (fun cur r => if fCost r <? fCost cur then r else cur) l acc)
    (seen ++ l).
Proof.
  induction l as [|x l IH]; intros seen acc H; simpl.
  - rewrite app_nil_r. exact H.
  - replace (seen ++ x :: l) with ((seen ++ [x]) ++ l)
      by (rewrite <- app_assoc; reflexivity).
    apply IH.
    destruct H as (earlier & later & -> & Hlt & Hle).
    destruct (Z.ltb_spec (fCost x) (fCost acc)) as [Hx|Hx].
    + exists (earlier ++ acc :: later), []. repeat split.
      * intros r Hr. apply in_app_or in Hr. destruct Hr as [Hr|[<-|Hr]].
        -- specialize (Hlt r Hr). lia.
        -- exact Hx.
        -- specialize (Hle r Hr). lia.
      * intros r [].
    + exists earlier, (later ++ [x]). repeat split.
      * rewrite <- app_assoc. reflexivity.
      * exact Hlt.
      * intros r Hr. apply in_app_or in Hr. destruct Hr as [Hr|[<-|[]]].
        -- apply Hle, Hr.
        -- exact Hx.
Qed.

Lemma lowestF_firstLowest (first : NodeRecord) (rest : list NodeRecord) :
  firstLowest (lowestF (first :: rest) first) (first :: rest).
Proof.
  unfold lowestF. simpl. rewrite Z.ltb_irrefl.
  apply (firstLowest_fold rest [first] first).
  exists [], []. repeat split; intros r [].
Qed.

Lemma firstLowest_In cur l : firstLowest cur l -> In cur l.
Proof.
  intros (earlier & later & -> & _). apply in_or_app. right. left. reflexivity.
Qed.

Lemma lowestF_In first rest : In (lowestF (first :: rest) first) (first :: rest).
Proof. apply firstLowest_In, lowestF_firstLowest. Qed.

(** One turn of the search loop on a non-empty open list: the record it
    examines is [lowestF] of the list. *)
Lemma searchLoop_examines AreEqual fuel goal first rest closedList cur0 this :
  let cur := lowestF (first :: rest) first in
  value (searchLoop AreEqual (S fuel) goal (first :: rest) closedList cur0) this =
  if Nat.eqb (pNode cur) goal then Ok (cur, closedList)
  else
    let lists :=
      value (expand goal cur
               (GetNodeConnections (m_pGraph this)
                  (GetIndex (m_pGraph this) (pNode cur)))
               (first :: rest, closedList)) this in
    match findErase AreEqual cur (fst lists) with
    | None => AssertionFailed
    | Some openList' =>
        value (searchLoop AreEqual fuel goal openList' (snd lists ++ [cur]) cur) this
    end.
Proof.
  intro cur. unfold value. cbn [searchLoop]. fold cur.
  destruct (Nat.eqb (pNode cur) goal); [reflexivity|].
  unfold bind, gets.
  match goal with
  | |- context [expand ?g ?c ?l ?ls this] =>
      pose proof (expand_frame g c l ls this) as F;
      destruct (expand g c l ls this) as [lists this']
  end.
  simpl in F. subst this'. simpl.
  destruct (findErase AreEqual cur (fst lists)); reflexivity.
Qed.

(** C8: the record the search loop examines in an iteration has the least
    [fCost] of the open list, and among the records of least [fCost] it is
    the earliest in the list, which is the order of insertion; no other
    cost is compared. It is the record tested against the goal. *)
Theorem lowestF_first_minimum (AreEqual : Z -> Z -> bool) (fuel : nat)
    (goal : NodePtr) (first : NodeRecord) (rest closedList : list NodeRecord)
    (cur0 : NodeRecord) (this : AStar) :
  let cur := lowestF (first :: rest) first in
  (forall r, In r (first :: rest) -> fCost cur <= fCost r)
  /\ (exists earlier later,
        first :: rest = earlier ++ cur :: later
        /\ forall r, In r earlier -> fCost cur < fCost r)
  /\ (Nat.eqb (pNode cur) goal = true ->
      value (searchLoop AreEqual (S fuel) goal (first :: rest) closedList cur0) this
      = Ok (cur, closedList)).
Proof.
  intro cur.
  destruct (lowestF_firstLowest first rest) as (earlier & later & E & Hlt & Hle).
  fold cur in E, Hlt, Hle.
  split; [|split].
  - intros r Hr. rewrite E in Hr. apply in_app_or in Hr.
    destruct Hr as [Hr|[<-|Hr]].
    + specialize (Hlt r Hr). lia.
    + lia.
    + apply Hle, Hr.
  - exists earlier, later. split; assumption.
  - intro Hgoal. rewrite searchLoop_examines. fold cur. rewrite Hgoal. reflexivity.
Qed.

(** ** The two scans *)

Lemma scanOpen_absent target g l :
  (forall x, In x l -> pNode x <> target) -> scanOpen target g l = (false, l).
Proof.
  induction l as [|r l IH]; intros H; simpl; [reflexivity|].
  destruct (Nat.eqb_spec (pNode r) target) as [E|_].
  - exfalso. apply (H r); [left; reflexivity | exact E].
  - rewrite IH; [reflexivity|]. intros x Hx. apply H. right. exact Hx.
Qed.

Lemma scanOpen_stale target g earlier r later :
  (forall x, In x earlier -> pNode x <> target) ->
  pNode r = target -> g < gCost r ->
  scanOpen target g (earlier ++ r :: later) = (true, earlier ++ later).
Proof.
  intros Hearlier Hr Hg.
  induction earlier as [|x earlier IH]; simpl.
  - rewrite Hr, Nat.eqb_refl.
    destruct (Z.gtb_spec (gCost r) g); [reflexivity | lia].
  - destruct (Nat.eqb_spec (pNode x) target) as [E|_].
    + exfalso. apply (Hearlier x); [left; reflexivity | exact E].
    + rewrite IH; [reflexivity|]. intros y Hy. apply Hearlier. right. exact Hy.
Qed.

Lemma scanOpen_incl target g l : incl (snd (scanOpen target g l)) l.
Proof.
  induction l as [|r l IH]; simpl; [apply incl_refl|].
  destruct (Nat.eqb (pNode r) target).
  - simpl. destruct (gCost r >? g); [apply incl_tl|]; apply incl_refl.
  - destruct (scanOpen target g l) as [b l']. simpl in *.
    intros x [<-|Hx]; [left; reflexivity | right; apply IH, Hx].
Qed.

(** The open scan erases nothing that costs at most the candidate. *)
Lemma scanOpen_keeps target g cur l :
  In cur l -> gCost cur <= g -> In cur (snd (scanOpen target g l)).
Proof.
  intros Hin Hg.
  induction l as [|r l IH]; simpl; [contradiction|].
  destruct (Nat.eqb (pNode r) target).
  - simpl. destruct (Z.gtb_spec (gCost r) g) as [Hr|Hr]; [|exact Hin].
    destruct Hin as [->|Hin]; [lia | exact Hin].
  - destruct (scanOpen target g l) as [b l']. simpl in *.
    destruct Hin as [->|Hin]; [left; reflexivity | right; apply IH, Hin].
Qed.

Lemma scanClosed_absent target g l :
  (forall x, In x l -> pNode x <> target) -> scanClosed target g l = (false, l).
Proof.
  induction l as [|r l IH]; intros H; simpl; [reflexivity|].
  destruct (Nat.eqb_spec (pNode r) target) as [E|_].
  - exfalso. apply (H r); [left; reflexivity | exact E].
  - rewrite IH; [reflexivity|]. intros x Hx. apply H. right. exact Hx.
Qed.

Lemma scanClosed_flag target g l :
  fst (scanClosed target g l) = existsb (fun x => Nat.eqb (pNode x) target) l.
Proof.
  induction l as [|r l IH]; simpl; [reflexivity|].
  destruct (Nat.eqb (pNode r) target).
  - destruct (gCost r >? g); reflexivity.
  - destruct (scanClosed target g l) as [b l']. simpl in *. exact IH.
Qed.

Lemma scanClosed_stale target g earlier r later :
  (forall x, In x earlier -> pNode x = target -> gCost x <= g) ->
  pNode r = target -> g < gCost r ->
  scanClosed target g (earlier ++ r :: later) = (true, earlier ++ later).
Proof.
  intros Hearlier Hr Hg.
  induction earlier as [|x earlier IH]; simpl.
  - rewrite Hr, Nat.eqb_refl.
    destruct (Z.gtb_spec (gCost r) g); [reflexivity | lia].
  - rewrite IH by (intros y Hy; apply Hearlier; right; exact Hy).
    destruct (Nat.eqb_spec (pNode x) target) as [E|_]; [|reflexivity].
    destruct (Z.gtb_spec (gCost x) g) as [Hx|_]; [|reflexivity].
    specialize (Hearlier x (or_introl eq_refl) E). lia.
Qed.

Lemma scanClosed_incl target g l : incl (snd (scanClosed target g l)) l.
Proof.
  induction l as [|r l IH]; simpl; [apply incl_refl|].
  destruct (Nat.eqb (pNode r) target).
  - destruct (gCost r >? g); simpl.
    + apply incl_tl, incl_refl.
    + intros x [<-|Hx]; [left; reflexivity | right; apply IH, Hx].
  - destruct (scanClosed target g l) as [b l']. simpl in *.
    intros x [<-|Hx]; [left; reflexivity | right; apply IH, Hx].
Qed.

(** ** The loop body on values *)

Lemma processConnection_value goal cur openList closedList c this :
  value (processConnection goal cur (openList, closedList) c) this =
  let g := m_pGraph this in
  let candidate := GetCost g c + gCost cur in
  let target := GetNode g (GetTo g c) in
  if fst (scanClosed target candidate closedList)
  then (openList, snd (scanClosed target candidate closedList))
  else if fst (scanOpen target candidate openList)
  then (snd (scanOpen target candidate openList),
        snd (scanClosed target candidate closedList))
  else (snd (scanOpen target candidate openList)
          ++ [{| pNode := target; pConnection := Some c; gCost := candidate;
                 fCost := candidate + value (GetHeuristicCost target goal) this |}],
        snd (scanClosed target candidate closedList)).
Proof.
  unfold processConnection. run_monad.
  destruct (scanClosed _ _ closedList) as [[|] closedList']; [reflexivity|].
  destruct (scanOpen _ _ openList) as [[|] openList']; reflexivity.
Qed.

Lemma expand_value_cons goal cur c conns lists this :
  value (expand goal cur (c :: conns) lists) this =
  value (expand goal cur conns (value (processConnection goal cur lists c) this)) this.
Proof. unfold value. rewrite expand_cons. reflexivity. Qed.

(** ** Stale records *)

(** C2: when the target of a connection has no closed record and its open
    record costs more than the candidate, the loop body erases that open
    record and goes on to the next connection: the open list is left
    without the stale record and no record is inserted. *)
Theorem stale_open_record_not_replaced (goal : NodePtr) (cur : NodeRecord)
    (earlier later closedList : list NodeRecord) (stale : NodeRecord)
    (c : ConnectionPtr) (this : AStar) :
  (forall x, In x closedList -> pNode x <> targetOf (m_pGraph this) c) ->
  (forall x, In x earlier -> pNode x <> targetOf (m_pGraph this) c) ->
  pNode stale = targetOf (m_pGraph this) c ->
  candidateCost (m_pGraph this) cur c < gCost stale ->
  value (processConnection goal cur (earlier ++ stale :: later, closedList) c) this
  = (earlier ++ later, closedList).
Proof.
  intros Hclosed Hearlier Hstale Hcost.
  rewrite processConnection_value. cbv zeta.
  fold (targetOf (m_pGraph this) c) (candidateCost (m_pGraph this) cur c).
  rewrite (scanClosed_absent _ _ closedList Hclosed).
  rewrite (scanOpen_stale _ _ earlier stale later Hearlier Hstale Hcost).
  reflexivity.
Qed.

(** C3: when the closed list holds a record of the target that costs more
    than the candidate, the loop body erases it and goes on to the next
    connection: the open list is unchanged, so the node is in neither list
    afterwards unless it was open already. *)
Theorem stale_closed_record_not_reopened (goal : NodePtr) (cur : NodeRecord)
    (openList earlier later : list NodeRecord) (stale : NodeRecord)
    (c : ConnectionPtr) (this : AStar) :
  (forall x, In x earlier -> pNode x = targetOf (m_pGraph this) c ->
             gCost x <= candidateCost (m_pGraph this) cur c) ->
  pNode stale = targetOf (m_pGraph this) c ->
  candidateCost (m_pGraph this) cur c < gCost stale ->
  value (processConnection goal cur (openList, earlier ++ stale :: later) c) this
  = (openList, earlier ++ later).
Proof.
  intros Hearlier Hstale Hcost.
  rewrite processConnection_value. cbv zeta.
  fold (targetOf (m_pGraph this) c) (candidateCost (m_pGraph this) cur c).
  rewrite (scanClosed_stale _ _ earlier stale later Hearlier Hstale Hcost).
  reflexivity.
Qed.

(** ** The assertion of step 2.g *)

Section Assertion.

Variable AreEqual : Z -> Z -> bool.
Hypothesis AreEqual_refl : forall a, AreEqual a a = true.

Lemma ptr_eqb_refl p : ptr_eqb p p = true.
Proof. destruct p as [c|]; simpl; [apply Nat.eqb_refl | reflexivity]. Qed.

Lemma NodeRecord_eq_refl r : NodeRecord_eq AreEqual r r = true.
Proof.
  unfold NodeRecord_eq.
  rewrite Nat.eqb_refl, ptr_eqb_refl, !AreEqual_refl. reflexivity.
Qed.

Lemma findErase_found cur l : In cur l -> findErase AreEqual cur l <> None.
Proof.
  induction l as [|r l IH]; simpl; [contradiction|].
  intros [->|Hin].
  - rewrite NodeRecord_eq_refl. discriminate.
  - destruct (NodeRecord_eq AreEqual r cur); [discriminate|].
    specialize (IH Hin). destruct (findErase AreEqual cur l); [discriminate|].
    contradiction.
Qed.

Lemma processConnection_keeps_current goal cur openList closedList c this :
  0 <= GetCost (m_pGraph this) c ->
  In cur openList ->
  In cur (fst (value (processConnection goal cur (openList, closedList) c) this)).
Proof.
  intros Hcost Hin. rewrite processConnection_value. cbv zeta.
  destruct (fst (scanClosed _ _ closedList)); [exact Hin|].
  assert (In cur (snd (scanOpen (GetNode (m_pGraph this) (GetTo (m_pGraph this) c))
                         (GetCost (m_pGraph this) c + gCost cur) openList))) as K
    by (apply scanOpen_keeps; [exact Hin | lia]).
  destruct (fst (scanOpen _ _ openList)); simpl; [exact K|].
  apply in_or_app. left. exact K.
Qed.

Lemma expand_keeps_current goal cur this : forall conns lists,
  (forall c, In c conns -> 0 <= GetCost (m_pGraph this) c) ->
  In cur (fst lists) ->
  In cur (fst (value (expand goal cur conns lists) this)).
Proof.
  induction conns as [|c conns IH]; intros lists Hcost Hin; [exact Hin|].
  rewrite expand_value_cons. apply IH.
  - intros c' Hc'. apply Hcost. right. exact Hc'.
  - destruct lists as [openList closedList].
    apply processConnection_keeps_current; [|exact Hin].
    apply Hcost. left. reflexivity.
Qed.

Lemma searchLoop_never_asserts goal this :
  nonNegativeCosts (m_pGraph this) ->
  forall fuel openList closedList cur0,
    value (searchLoop AreEqual fuel goal openList closedList cur0) this
    <> AssertionFailed.
Proof.
  intros Hcost. induction fuel as [|fuel IH]; intros openList closedList cur0.
  - discriminate.
  - destruct openList as [|first rest]; [discriminate|].
    rewrite searchLoop_examines. cbv zeta.
    destruct (Nat.eqb _ goal); [discriminate|].
    match goal with
    | |- context [findErase AreEqual ?c (fst ?l)] =>
        pose proof (findErase_found c (fst l)) as F
    end.
    destruct (findErase AreEqual _ _) as [openList'|].
    + apply IH.
    + exfalso. apply F; [|reflexivity].
      apply expand_keeps_current.
      * intros c Hc. exact (Hcost _ c Hc).
      * apply lowestF_In.
Qed.

Lemma scanPredecessor_never_asserts cur this : forall closedList,
  value (scanPredecessor cur closedList) this <> AssertionFailed.
Proof.
  induction closedList as [|r rest IH]; unfold value in *; simpl; [discriminate|].
  destruct (pConnection cur); [|discriminate].
  run_monad. destruct (Nat.eqb _ _); [discriminate | exact IH].
Qed.

Lemma reconstruct_value_step fuel s cur closedList path this :
  value (reconstruct (S fuel) s cur closedList path) this =
  if Nat.eqb (pNode cur) s then Ok path
  else
    match value (scanPredecessor cur closedList) this with
    | Ok (Some r) =>
        value (reconstruct fuel s r closedList (path ++ [pNode r])) this
    | Ok None => value (reconstruct fuel s cur closedList path) this
    | AssertionFailed => AssertionFailed
    | NullDereference => NullDereference
    | OutOfFuel => OutOfFuel
    end.
Proof.
  unfold value. cbn [reconstruct].
  destruct (Nat.eqb (pNode cur) s); [reflexivity|].
  unfold bind.
  pose proof (scanPredecessor_frame cur closedList this) as F.
  destruct (scanPredecessor cur closedList this) as [found this'].
  simpl in F. subst this'. simpl.
  destruct found as [[r|]| | |]; reflexivity.
Qed.

Lemma reconstruct_never_asserts s closedList this : forall fuel cur path,
  value (reconstruct fuel s cur closedList path) this <> AssertionFailed.
Proof.
  induction fuel as [|fuel IH]; intros cur path; [discriminate|].
  rewrite reconstruct_value_step.
  destruct (Nat.eqb _ s); [discriminate|].
  pose proof (scanPredecessor_never_asserts cur this closedList) as F.
  destruct (value (scanPredecessor cur closedList) this) as [[r|]| | |];
    try discriminate; try apply IH. contradiction.
Qed.

End Assertion.

(** C10: on a graph without negative connection costs (and with a
    reflexive [AreEqual]) the record under expansion is still in the open
    list when its connections have been processed, so [std::find] reaches
    it in every iteration and no call of [FindPath] ends in the
    assertion. *)
Theorem find_current_never_fails (AreEqual : Z -> Z -> bool) (this : AStar) :
  (forall a, AreEqual a a = true) ->
  nonNegativeCosts (m_pGraph this) ->
  (forall goal first rest closedList,
      In (lowestF (first :: rest) first)
         (fst (value (expand goal (lowestF (first :: rest) first)
                        (GetNodeConnections (m_pGraph this)
                           (GetIndex (m_pGraph this)
                              (pNode (lowestF (first :: rest) first))))
                        (first :: rest, closedList)) this))
      /\ findErase AreEqual (lowestF (first :: rest) first)
           (fst (value (expand goal (lowestF (first :: rest) first)
                          (GetNodeConnections (m_pGraph this)
                             (GetIndex (m_pGraph this)
                                (pNode (lowestF (first :: rest) first))))
                          (first :: rest, closedList)) this))
         <> None)
  /\ (forall fuel pStartNode pGoalNode,
        value (FindPath AreEqual fuel pStartNode pGoalNode) this
        <> AssertionFailed).
Proof.
  intros Hrefl Hcost. split.
  - intros goal first rest closedList.
    assert (In (lowestF (first :: rest) first)
              (fst (value (expand goal (lowestF (first :: rest) first)
                        (GetNodeConnections (m_pGraph this)
                           (GetIndex (m_pGraph this)
                              (pNode (lowestF (first :: rest) first))))
                        (first :: rest, closedList)) this))) as K.
    { apply expand_keeps_current.
      - intros c Hc. exact (Hcost _ c Hc).
      - apply lowestF_In. }
    split; [exact K | apply findErase_found; assumption].
  - intros fuel pStartNode pGoalNode. rewrite FindPath_value.
    unfold search. run_monad.
    match goal with
    | |- context [searchLoop AreEqual fuel pGoalNode ?o ?c ?r this] =>
        pose proof (searchLoop_never_asserts AreEqual Hrefl pGoalNode this Hcost
                      fuel o c r) as F;
        unfold value in F;
        destruct (fst (searchLoop AreEqual fuel pGoalNode o c r this))
          as [[cur closedList]| | |]
    end; try discriminate; [|contradiction].
    pose proof (reconstruct_never_asserts pStartNode closedList this fuel cur
                  [pGoalNode]) as R.
    unfold value in R.
    destruct (fst (reconstruct fuel pStartNode cur closedList [pGoalNode] this));
      try discriminate. contradiction.
Qed.

(** ** Records and the connections they hold *)

Lemma findErase_incl AreEqual cur : forall l l',
  findErase AreEqual cur l = Some l' -> incl l' l.
Proof.
  induction l as [|r l IH]; simpl; intros l' H; [discriminate|].
  destruct (NodeRecord_eq AreEqual r cur).
  - injection H as <-. apply incl_tl, incl_refl.
  - destruct (findErase AreEqual cur l) as [l0|]; [|discriminate].
    injection H as <-.
    intros x [<-|Hx]; [left; reflexivity | right; apply (IH l0 eq_refl), Hx].
Qed.

Lemma Forall_incl {A : Type} (P : A -> Prop) (l l' : list A) :
  incl l' l -> Forall P l -> Forall P l'.
Proof.
  intros Hincl H. rewrite Forall_forall in *. intros x Hx. apply H, Hincl, Hx.
Qed.

Lemma processConnection_sound s goal cur openList closedList c this :
  inGraph (m_pGraph this) c ->
  Forall (recordSound (m_pGraph this) s) openList ->
  Forall (recordSound (m_pGraph this) s) closedList ->
  Forall (recordSound (m_pGraph this) s)
    (fst (value (processConnection goal cur (openList, closedList) c) this))
  /\ Forall (recordSound (m_pGraph this) s)
    (snd (value (processConnection goal cur (openList, closedList) c) this)).
Proof.
  intros Hc Hopen Hclosed. rewrite processConnection_value. cbv zeta.
  pose proof (Forall_incl _ _ _ (scanClosed_incl
    (GetNode (m_pGraph this) (GetTo (m_pGraph this) c))
    (GetCost (m_pGraph this) c + gCost cur) closedList) Hclosed) as Kc.
  pose proof (Forall_incl _ _ _ (scanOpen_incl
    (GetNode (m_pGraph this) (GetTo (m_pGraph this) c))
    (GetCost (m_pGraph this) c + gCost cur) openList) Hopen) as Ko.
  destruct (fst (scanClosed _ _ closedList)); [split; assumption|].
  destruct (fst (scanOpen _ _ openList)); simpl; split; try assumption.
  apply Forall_app. split; [exact Ko|].
  constructor; [|constructor].
  unfold recordSound. simpl. split; [exact Hc | reflexivity].
Qed.

Lemma expand_sound s goal cur this : forall conns lists,
  (forall c, In c conns -> inGraph (m_pGraph this) c) ->
  Forall (recordSound (m_pGraph this) s) (fst lists) ->
  Forall (recordSound (m_pGraph this) s) (snd lists) ->
  Forall (recordSound (m_pGraph this) s) (fst (value (expand goal cur conns lists) this))
  /\ Forall (recordSound (m_pGraph this) s) (snd (value (expand goal cur conns lists) this)).
Proof.
  induction conns as [|c conns IH]; intros lists Hc Hopen Hclosed;
    [split; assumption|].
  rewrite expand_value_cons.
  destruct lists as [openList closedList].
  destruct (processConnection_sound s goal cur openList closedList c this)
    as [Ko Kc]; try assumption.
  { apply Hc. left. reflexivity. }
  apply IH; try assumption.
  intros c' Hc'. apply Hc. right. exact Hc'.
Qed.

Lemma searchLoop_sound AreEqual s goal this : forall fuel openList closedList cur0 cur closedList',
  Forall (recordSound (m_pGraph this) s) openList ->
  Forall (recordSound (m_pGraph this) s) closedList ->
  recordSound (m_pGraph this) s cur0 ->
  value (searchLoop AreEqual fuel goal openList closedList cur0) this
  = Ok (cur, closedList') ->
  recordSound (m_pGraph this) s cur
  /\ Forall (recordSound (m_pGraph this) s) closedList'.
Proof.
  induction fuel as [|fuel IH]; intros openList closedList cur0 cur closedList'
    Hopen Hclosed Hcur0 H; [discriminate|].
  destruct openList as [|first rest].
  - injection H as <- <-. split; assumption.
  - rewrite searchLoop_examines in H. cbv zeta in H.
    assert (recordSound (m_pGraph this) s (lowestF (first :: rest) first)) as Hsel.
    { rewrite Forall_forall in Hopen. apply Hopen, lowestF_In. }
    destruct (Nat.eqb _ goal).
    + injection H as <- <-. split; assumption.
    + match type of H with
      | context [expand ?g ?c ?l ?ls] =>
          destruct (expand_sound s g c this l ls) as [Ko Kc]; try assumption;
          [ intros c' Hc'; eexists; exact Hc' | ]
      end.
      destruct (findErase AreEqual _ _) as [openList'|] eqn:E; [|discriminate].
      apply IH in H; try assumption.
      * exact (Forall_incl _ _ _ (findErase_incl _ _ _ _ E) Ko).
      * apply Forall_app. split; [exact Kc | constructor; [exact Hsel | constructor]].
Qed.

Lemma search_sound AreEqual fuel s g this cur closedList :
  value (search AreEqual fuel s g) this = Ok (cur, closedList) ->
  recordSound (m_pGraph this) s cur
  /\ Forall (recordSound (m_pGraph this) s) closedList.
Proof.
  unfold search. run_monad. intro H.
  apply (searchLoop_sound AreEqual s g this) in H; try assumption.
  - constructor; [reflexivity | constructor].
  - constructor.
  - reflexivity.
Qed.

(** ** Reconstruction *)

Lemma scanPredecessor_found cur this : forall closedList r,
  value (scanPredecessor cur closedList) this = Ok (Some r) ->
  In r closedList
  /\ exists c, pConnection cur = Some c
               /\ pNode r = GetNode (m_pGraph this) (GetFrom (m_pGraph this) c).
Proof.
  induction closedList as [|x rest IH]; intros r H.
  - discriminate.
  - unfold value in *. simpl in H.
    destruct (pConnection cur) as [c|] eqn:E; [|discriminate].
    run_monad.
    destruct (Nat.eqb_spec (pNode x)
                (GetNode (m_pGraph this) (GetFrom (m_pGraph this) c))) as [Hx|_].
    + injection H as <-. split; [left; reflexivity|].
      exists c. split; [reflexivity | exact Hx].
    + destruct (IH r H) as [Hin (c' & Hc' & Hr)].
      split; [right; exact Hin|]. exists c'. split; assumption.
Qed.

(** The path only grows at its end. *)
Lemma reconstruct_extends s closedList this : forall fuel cur path p,
  value (reconstruct fuel s cur closedList path) this = Ok p ->
  exists more, p = path ++ more.
Proof.
  induction fuel as [|fuel IH]; intros cur path p H; [discriminate|].
  rewrite reconstruct_value_step in H.
  destruct (Nat.eqb _ s).
  - injection H as <-. exists []. rewrite app_nil_r. reflexivity.
  - destruct (value (scanPredecessor cur closedList) this) as [[r|]| | |];
      try discriminate.
    + apply IH in H. destruct H as [more ->].
      exists (pNode r :: more). rewrite <- app_assoc. reflexivity.
    + apply IH in H. exact H.
Qed.

(** While the last node pushed is the node of the current record, every
    step back follows a connection of the graph against its direction. *)
Lemma scanPredecessor_no_null s cur this : forall closedList,
  recordSound (m_pGraph this) s cur ->
  pNode cur <> s ->
  value (scanPredecessor cur closedList) this <> NullDereference.
Proof.
  intros closedList Hcur Hs.
  induction closedList as [|x rest IH]; unfold value in *; simpl; [discriminate|].
  unfold recordSound in Hcur.
  destruct (pConnection cur) as [c|]; [|contradiction].
  run_monad. destruct (Nat.eqb _ _); [discriminate | exact IH].
Qed.

Lemma reconstruct_no_null s closedList this :
  Forall (recordSound (m_pGraph this) s) closedList ->
  forall fuel cur path,
    recordSound (m_pGraph this) s cur ->
    value (reconstruct fuel s cur closedList path) this <> NullDereference.
Proof.
  intros Hclosed.
  induction fuel as [|fuel IH]; intros cur path Hcur; [discriminate|].
  rewrite reconstruct_value_step.
  destruct (Nat.eqb_spec (pNode cur) s) as [_|Hs]; [discriminate|].
  pose proof (scanPredecessor_no_null s cur this closedList Hcur Hs) as N.
  destruct (value (scanPredecessor cur closedList) this) as [[r|]| | |] eqn:E;
    try discriminate; try contradiction.
  - apply IH. apply scanPredecessor_found in E. destruct E as [Hin _].
    rewrite Forall_forall in Hclosed. apply Hclosed, Hin.
  - apply IH. exact Hcur.
Qed.

Lemma reconstruct_valid s closedList this :
  Forall (recordSound (m_pGraph this) s) closedList ->
  forall fuel cur path p,
    recordSound (m_pGraph this) s cur ->
    (exists front, rev path = pNode cur :: front) ->
    validPath (m_pGraph this) (rev path) ->
    value (reconstruct fuel s cur closedList path) this = Ok p ->
    validPath (m_pGraph this) (rev p).
Proof.
  intros Hclosed.
  induction fuel as [|fuel IH]; intros cur path p Hcur Hlast Hvalid H;
    [discriminate|].
  rewrite reconstruct_value_step in H.
  destruct (Nat.eqb _ s).
  - injection H as <-. exact Hvalid.
  - destruct (value (scanPredecessor cur closedList) this) as [[r|]| | |] eqn:E;
      try discriminate.
    + apply scanPredecessor_found in E. destruct E as [Hin (c & Hc & Hr)].
      apply (IH r (path ++ [pNode r]) p); try assumption.
      * rewrite Forall_forall in Hclosed. apply Hclosed, Hin.
      * rewrite rev_unit. eexists. reflexivity.
      * rewrite rev_unit. destruct Hlast as [front Hfront].
        rewrite Hfront in *. simpl. split; [|exact Hvalid].
        unfold recordSound in Hcur. rewrite Hc in Hcur.
        destruct Hcur as [Hg Hto].
        exists c. repeat split; [exact Hg | symmetry; exact Hr | exact Hto].
    + apply (IH cur path p); assumption.
Qed.

(** C6, as the code has it: when the search loop left on a record of the
    goal, every two consecutive nodes of the sequence [FindPath] returns
    are joined, in that direction, by a connection of the graph. *)
Theorem FindPath_valid_when_goal_reached (AreEqual : Z -> Z -> bool)
    (fuel : nat) (pStartNode pGoalNode : NodePtr) (this : AStar)
    (path : list NodePtr) :
  reached AreEqual fuel pStartNode pGoalNode this ->
  value (FindPath AreEqual fuel pStartNode pGoalNode) this = Ok path ->
  validPath (m_pGraph this) path.
Proof.
  intros (cur & closedList & Hsearch & Hgoal) H.
  rewrite FindPath_value, Hsearch in H.
  destruct (search_sound _ _ _ _ _ _ _ Hsearch) as [Hcur Hclosed].
  destruct (value (reconstruct fuel pStartNode cur closedList [pGoalNode]) this)
    as [p| | |] eqn:E; try discriminate.
  injection H as <-.
  apply (reconstruct_valid pStartNode closedList this Hclosed fuel cur
           [pGoalNode] p); try assumption.
  - exists []. simpl. rewrite Hgoal. reflexivity.
  - exact I.
Qed.

(** C4, as the code has it: when the open list runs empty before a
    record of the goal is selected, [FindPath] has no failure value to
    give. The call does not crash (no assertion fails, no null pointer is
    dereferenced), and a sequence it returns is not empty and ends with
    the goal node. *)
Theorem FindPath_exhausted_ends_with_goal (AreEqual : Z -> Z -> bool)
    (fuel : nat) (pStartNode pGoalNode : NodePtr) (this : AStar) :
  exhausted AreEqual fuel pStartNode pGoalNode this ->
  value (FindPath AreEqual fuel pStartNode pGoalNode) this <> AssertionFailed
  /\ value (FindPath AreEqual fuel pStartNode pGoalNode) this <> NullDereference
  /\ forall path,
       value (FindPath AreEqual fuel pStartNode pGoalNode) this = Ok path ->
       path <> [] /\ exists front, path = front ++ [pGoalNode].
Proof.
  intros (cur & closedList & Hsearch & _).
  rewrite FindPath_value, Hsearch.
  destruct (search_sound _ _ _ _ _ _ _ Hsearch) as [Hcur Hclosed].
  pose proof (reconstruct_never_asserts pStartNode closedList this fuel cur
                [pGoalNode]) as A.
  pose proof (reconstruct_no_null pStartNode closedList this Hclosed fuel cur
                [pGoalNode] Hcur) as N.
  destruct (value (reconstruct fuel pStartNode cur closedList [pGoalNode]) this)
    as [p| | |] eqn:E; simpl; try contradiction;
    (split; [discriminate | split; [discriminate|]]); intros path H;
    try discriminate.
  injection H as <-.
  apply reconstruct_extends in E. destruct E as [more ->].
  simpl. split.
  - destruct (rev more); discriminate.
  - exists (rev more). reflexivity.
Qed.

(** ** One open record per node, and the tolerance of [AreEqual]

    The open list never holds two records of one node, so on a graph
    without negative costs [std::find] can only stop at the record under
    expansion itself: the outcome of a call is the same for every
    reflexive [AreEqual]. *)

Lemma scanOpen_flag target g l :
  fst (scanOpen target g l) = existsb (fun x => Nat.eqb (pNode x) target) l.
Proof.
  induction l as [|r l IH]; simpl; [reflexivity|].
  destruct (Nat.eqb (pNode r) target); [reflexivity|].
  destruct (scanOpen target g l) as [b l']. simpl in *. exact IH.
Qed.

Lemma incl_map_pNode l l' x :
  incl l' l -> In x (map pNode l') -> In x (map pNode l).
Proof.
  intros Hincl Hx. apply in_map_iff in Hx. destruct Hx as (r & <- & Hr).
  apply in_map, Hincl, Hr.
Qed.

Lemma scanOpen_distinct target g l :
  distinctNodes l -> distinctNodes (snd (scanOpen target g l)).
Proof.
  unfold distinctNodes.
  induction l as [|r l IH]; simpl; intros H; [exact H|].
  inversion H as [|? ? Hr Hl]; subst.
  destruct (Nat.eqb (pNode r) target).
  - simpl. destruct (gCost r >? g); assumption.
  - pose proof (scanOpen_incl target g l) as Hincl.
    destruct (scanOpen target g l) as [b l']. simpl in *.
    constructor; [|apply IH, Hl].
    intro Hx. apply Hr. exact (incl_map_pNode l l' _ Hincl Hx).
Qed.

Lemma processConnection_distinct goal cur openList closedList c this :
  distinctNodes openList ->
  distinctNodes (fst (value (processConnection goal cur (openList, closedList) c) this)).
Proof.
  intros H. rewrite processConnection_value. cbv zeta.
  destruct (fst (scanClosed _ _ closedList)); [exact H|].
  pose proof (scanOpen_distinct (GetNode (m_pGraph this) (GetTo (m_pGraph this) c))
                (GetCost (m_pGraph this) c + gCost cur) openList H) as D.
  destruct (fst (scanOpen _ _ openList)) eqn:E; simpl; [exact D|].
  unfold distinctNodes in *. rewrite map_app. simpl.
  apply NoDup_app; [exact D | constructor; [intros [] | constructor] |].
  intros x Hx [<-|[]].
  rewrite scanOpen_flag in E.
  apply (incl_map_pNode openList) in Hx; [|apply scanOpen_incl].
  apply in_map_iff in Hx. destruct Hx as (r & Hr & Hin).
  assert (existsb (fun x => Nat.eqb (pNode x)
                     (GetNode (m_pGraph this) (GetTo (m_pGraph this) c))) openList
          = true) as T.
  { apply existsb_exists. exists r. split; [exact Hin|].
    rewrite Hr. apply Nat.eqb_refl. }
  rewrite T in E. discriminate.
Qed.

Lemma expand_distinct goal cur this : forall conns lists,
  distinctNodes (fst lists) ->
  distinctNodes (fst (value (expand goal cur conns lists) this)).
Proof.
  induction conns as [|c conns IH]; intros lists H; [exact H|].
  rewrite expand_value_cons. apply IH.
  destruct lists as [openList closedList].
  apply processConnection_distinct, H.
Qed.

Lemma findErase_distinct AreEqual cur : forall l l',
  findErase AreEqual cur l = Some l' -> distinctNodes l -> distinctNodes l'.
Proof.
  unfold distinctNodes.
  induction l as [|r l IH]; simpl; intros l' E H; [discriminate|].
  inversion H as [|? ? Hr Hl]; subst.
  destruct (NodeRecord_eq AreEqual r cur).
  - injection E as <-. exact Hl.
  - destruct (findErase AreEqual cur l) as [l0|] eqn:E0; [|discriminate].
    injection E as <-. simpl. constructor; [|apply (IH l0 eq_refl Hl)].
    intro Hx. apply Hr.
    exact (incl_map_pNode l l0 _ (findErase_incl _ _ _ _ E0) Hx).
Qed.

Section Tolerance.

Variables AreEqual AreEqual' : Z -> Z -> bool.
Hypothesis AreEqual_refl : forall a, AreEqual a a = true.
Hypothesis AreEqual'_refl : forall a, AreEqual' a a = true.

Lemma findErase_tolerance cur : forall l,
  distinctNodes l -> In cur l ->
  findErase AreEqual cur l = findErase AreEqual' cur l.
Proof.
  unfold distinctNodes.
  induction l as [|r l IH]; simpl; intros H Hin; [reflexivity|].
  inversion H as [|? ? Hr Hl]; subst.
  destruct Hin as [->|Hin].
  - rewrite !NodeRecord_eq_refl by assumption. reflexivity.
  - assert (Nat.eqb (pNode r) (pNode cur) = false) as N.
    { apply Nat.eqb_neq. intro E. apply Hr. rewrite E. apply in_map, Hin. }
    unfold NodeRecord_eq. rewrite N. simpl.
    rewrite (IH Hl Hin). reflexivity.
Qed.

Lemma searchLoop_tolerance goal this :
  nonNegativeCosts (m_pGraph this) ->
  forall fuel openList closedList cur0,
    distinctNodes openList ->
    value (searchLoop AreEqual fuel goal openList closedList cur0) this
    = value (searchLoop AreEqual' fuel goal openList closedList cur0) this.
Proof.
  intros Hcost.
  induction fuel as [|fuel IH]; intros openList closedList cur0 D; [reflexivity|].
  destruct openList as [|first rest]; [reflexivity|].
  rewrite !searchLoop_examines. cbv zeta.
  destruct (Nat.eqb _ goal); [reflexivity|].
  match goal with
  | |- context [findErase AreEqual ?c (fst ?l)] =>
      assert (distinctNodes (fst l)) as D' by (apply expand_distinct; exact D);
      assert (In c (fst l)) as K
        by (apply expand_keeps_current;
            [intros x Hx; exact (Hcost _ x Hx) | apply lowestF_In]);
      rewrite <- (findErase_tolerance c (fst l) D' K);
      destruct (findErase AreEqual c (fst l)) as [openList'|] eqn:E
  end; [|reflexivity].
  apply IH. exact (findErase_distinct _ _ _ _ E D').
Qed.

Lemma FindPath_tolerance fuel s g this :
  nonNegativeCosts (m_pGraph this) ->
  value (FindPath AreEqual fuel s g) this = value (FindPath AreEqual' fuel s g) this.
Proof.
  intros Hcost. rewrite !FindPath_value.
  assert (value (search AreEqual fuel s g) this
          = value (search AreEqual' fuel s g) this) as E.
  { unfold search. run_monad. apply (searchLoop_tolerance g this Hcost).
    unfold distinctNodes. simpl. constructor; [intros [] | constructor]. }
  rewrite E. reflexivity.
Qed.

Lemma search_tolerance fuel s g this :
  nonNegativeCosts (m_pGraph this) ->
  value (search AreEqual fuel s g) this = value (search AreEqual' fuel s g) this.
Proof.
  intros Hcost. unfold search. run_monad.
  apply (searchLoop_tolerance g this Hcost).
  unfold distinctNodes. simpl. constructor; [intros [] | constructor].
Qed.

End Tolerance.

(** ** The fixtures *)

Lemma graphOf_nonNegative positions connections :
  Forall (fun c => 0 <= m_Cost c) connections ->
  nonNegativeCosts (graphOf positions connections).
Proof.
  intros H idx c Hc. simpl in *.
  apply filter_In in Hc. destruct Hc as [Hc _].
  apply in_seq in Hc.
  rewrite Forall_forall in H. apply H, nth_In. lia.
Qed.

Lemma scenario_nonNegative : nonNegativeCosts (m_pGraph scenario).
Proof. apply graphOf_nonNegative. repeat constructor; simpl; lia. Qed.

Lemma detour_nonNegative : nonNegativeCosts (m_pGraph detour).
Proof. apply graphOf_nonNegative. repeat constructor; simpl; lia. Qed.

Lemma island_nonNegative : nonNegativeCosts (m_pGraph island).
Proof. apply graphOf_nonNegative. repeat constructor; simpl; lia. Qed.

(** ** The four-node scenario *)

(** C1: in the four-node scenario with the zero heuristic, [FindPath]
    from A (node 0) to D (node 3) returns A, B, D, and the record of D it
    stops on has cost 6: the open record of C is erased when B finds the
    cheaper way to it and C is never entered again, so the route of cost 3
    through C is lost. *)
Theorem FindPath_scenario (AreEqual : Z -> Z -> bool) (fuel : nat) :
  (forall a, AreEqual a a = true) ->
  value (FindPath AreEqual (3 + fuel) 0%nat 3%nat) scenario
  = Ok [0%nat; 1%nat; 3%nat]
  /\ value (search AreEqual (3 + fuel) 0%nat 3%nat) scenario
     = Ok (Build_NodeRecord 3%nat (Some 3%nat) 6 6,
           [Build_NodeRecord 0%nat None 0 0;
            Build_NodeRecord 1%nat (Some 0%nat) 1 1]).
Proof.
  intros H.
  rewrite (FindPath_tolerance AreEqual Z.eqb H Z.eqb_refl _ _ _ _ scenario_nonNegative).
  rewrite (search_tolerance AreEqual Z.eqb H Z.eqb_refl _ _ _ _ scenario_nonNegative).
  split; vm_compute; reflexivity.
Qed.

Lemma FindPath_scenario_witness :
  value (FindPath Z.eqb (3 + 0) 0%nat 3%nat) scenario = Ok [0%nat; 1%nat; 3%nat]
  /\ value (search Z.eqb (3 + 0) 0%nat 3%nat) scenario
     = Ok (Build_NodeRecord 3%nat (Some 3%nat) 6 6,
           [Build_NodeRecord 0%nat None 0 0;
            Build_NodeRecord 1%nat (Some 0%nat) 1 1]).
Proof. apply (FindPath_scenario Z.eqb 0). intro a. apply Z.eqb_refl. Defined.

(** The order in which the connections were inserted makes no difference
    to that outcome. *)
Lemma FindPath_scenario_any_order (swapA swapB : bool) (fuel : nat) :
  value (FindPath Z.eqb (3 + fuel) 0%nat 3%nat) (scenarioOrdered swapA swapB)
  = Ok [0%nat; 1%nat; 3%nat].
Proof. destruct swapA, swapB; vm_compute; reflexivity. Qed.

(** The state of the call when B is expanded: the search goes on from the
    open list B, C and the closed list A, and B is the record selected. *)
Lemma scenario_at_B (fuel : nat) :
  value (search Z.eqb (2 + fuel) 0%nat 3%nat) scenario
  = value (searchLoop Z.eqb (1 + fuel) 3%nat
             [Build_NodeRecord 1%nat (Some 0%nat) 1 1;
              Build_NodeRecord 2%nat (Some 1%nat) 4 4]
             [Build_NodeRecord 0%nat None 0 0]
             (Build_NodeRecord 0%nat None 0 0)) scenario
  /\ lowestF [Build_NodeRecord 1%nat (Some 0%nat) 1 1;
              Build_NodeRecord 2%nat (Some 1%nat) 4 4]
             (Build_NodeRecord 1%nat (Some 0%nat) 1 1)
     = Build_NodeRecord 1%nat (Some 0%nat) 1 1.
Proof. split; vm_compute; reflexivity. Qed.

(** The records of the scenario when B is expanded. *)
Lemma stale_open_record_not_replaced_witness :
  value (processConnection 3%nat
           (Build_NodeRecord 1%nat (Some 0%nat) 1 1)
           ([(Build_NodeRecord 1%nat (Some 0%nat) 1 1)]
              ++ (Build_NodeRecord 2%nat (Some 1%nat) 4 4)
              :: [],
            [(Build_NodeRecord 0%nat None 0 0)])
           2%nat) scenario
  = ([(Build_NodeRecord 1%nat (Some 0%nat) 1 1)] ++ [],
     [(Build_NodeRecord 0%nat None 0 0)]).
Proof.
  apply stale_open_record_not_replaced.
  - intros x [<-|[]]. vm_compute. discriminate.
  - intros x [<-|[]]. vm_compute. discriminate.
  - vm_compute. reflexivity.
  - vm_compute. reflexivity.
Defined.

(** ** The detour *)

(** The state of the call when Q is expanded: the search goes on from the
    open list Q, G and the closed list S, P, and Q is the record selected. *)
Lemma detour_at_Q (fuel : nat) :
  value (search Z.eqb (3 + fuel) 0%nat 3%nat) detour
  = value (searchLoop Z.eqb (1 + fuel) 3%nat
             [Build_NodeRecord 2%nat (Some 1%nat) 1 13;
              Build_NodeRecord 3%nat (Some 3%nat) 30 30]
             [Build_NodeRecord 0%nat None 0 16;
              Build_NodeRecord 1%nat (Some 0%nat) 10 11]
             (Build_NodeRecord 1%nat (Some 0%nat) 10 11)) detour
  /\ lowestF [Build_NodeRecord 2%nat (Some 1%nat) 1 13;
              Build_NodeRecord 3%nat (Some 3%nat) 30 30]
             (Build_NodeRecord 2%nat (Some 1%nat) 1 13)
     = Build_NodeRecord 2%nat (Some 1%nat) 1 13.
Proof. split; vm_compute; reflexivity. Qed.

(** The records of the detour when Q is expanded: P is closed at cost 10
    and Q reaches it at cost 2. *)
Lemma stale_closed_record_not_reopened_witness :
  value (processConnection 3%nat
           (Build_NodeRecord 2%nat (Some 1%nat) 1 13)
           ([(Build_NodeRecord 2%nat (Some 1%nat) 1 13);
             (Build_NodeRecord 3%nat (Some 3%nat) 30 30)],
            [(Build_NodeRecord 0%nat None 0 16)]
              ++ (Build_NodeRecord 1%nat (Some 0%nat) 10 11)
              :: [])
           2%nat) detour
  = ([(Build_NodeRecord 2%nat (Some 1%nat) 1 13);
      (Build_NodeRecord 3%nat (Some 3%nat) 30 30)],
     [(Build_NodeRecord 0%nat None 0 16)] ++ []).
Proof.
  apply stale_closed_record_not_reopened.
  - intros x [<-|[]]. vm_compute. discriminate.
  - vm_compute. reflexivity.
  - vm_compute. reflexivity.
Defined.

(** A reconstruction that finds no closed record for the predecessor makes
    no progress. *)
Lemma reconstruct_stuck s cur closedList path this :
  Nat.eqb (pNode cur) s = false ->
  value (scanPredecessor cur closedList) this = Ok None ->
  forall fuel, value (reconstruct fuel s cur closedList path) this = OutOfFuel.
Proof.
  intros Hs Hscan. induction fuel as [|fuel IH]; [reflexivity|].
  rewrite reconstruct_value_step, Hs, Hscan. exact IH.
Qed.

(** C5: on the detour (four nodes, no negative cost, a Manhattan estimate
    that never exceeds the remaining cost) [FindPath] from S (node 0) to G
    (node 3) does not return, whatever the fuel. The search loop ends in
    four turns on the record of G, but the closed record of P was erased
    when Q found the cheaper way to it, and the reconstruction loop looks
    for it forever. *)
Theorem FindPath_detour_never_returns (AreEqual : Z -> Z -> bool) (fuel : nat) :
  (forall a, AreEqual a a = true) ->
  value (FindPath AreEqual fuel 0%nat 3%nat) detour = OutOfFuel
  /\ value (search AreEqual (4 + fuel) 0%nat 3%nat) detour
     = Ok (Build_NodeRecord 3%nat (Some 3%nat) 30 30,
           [Build_NodeRecord 0%nat None 0 16;
            Build_NodeRecord 2%nat (Some 1%nat) 1 13]).
Proof.
  intros H.
  rewrite (FindPath_tolerance AreEqual Z.eqb H Z.eqb_refl _ _ _ _ detour_nonNegative).
  rewrite (search_tolerance AreEqual Z.eqb H Z.eqb_refl _ _ _ _ detour_nonNegative).
  split; [|vm_compute; reflexivity].
  destruct fuel as [|[|[|[|fuel]]]]; try (vm_compute; reflexivity).
  rewrite FindPath_value.
  assert (value (search Z.eqb (S (S (S (S fuel)))) 0%nat 3%nat) detour
          = Ok (Build_NodeRecord 3%nat (Some 3%nat) 30 30,
                [Build_NodeRecord 0%nat None 0 16;
                 Build_NodeRecord 2%nat (Some 1%nat) 1 13]))
    as E by (vm_compute; reflexivity).
  rewrite E. rewrite reconstruct_stuck; reflexivity.
Qed.

Lemma FindPath_detour_never_returns_witness :
  value (FindPath Z.eqb 1000 0%nat 3%nat) detour = OutOfFuel
  /\ value (search Z.eqb (4 + 1000) 0%nat 3%nat) detour
     = Ok (Build_NodeRecord 3%nat (Some 3%nat) 30 30,
           [Build_NodeRecord 0%nat None 0 16;
            Build_NodeRecord 2%nat (Some 1%nat) 1 13]).
Proof.
  apply (FindPath_detour_never_returns Z.eqb 1000). intro a. apply Z.eqb_refl.
Defined.

(** ** The island *)

Lemma island_exhausted : exhausted Z.eqb 10 0%nat 2%nat island.
Proof.
  eexists. eexists. split; [vm_compute; reflexivity|]. simpl. discriminate.
Defined.

Lemma island_not_joined : ~ joins (m_pGraph island) 0%nat 2%nat.
Proof.
  intros (c & (idx & Hin) & _ & Hto). simpl in Hin.
  destruct idx; simpl in Hin; try contradiction.
  destruct Hin as [<-|[]]. vm_compute in Hto. discriminate.
Qed.

(** Where C4 fails as stated: node 2 of the island cannot be reached from
    node 0, the open list runs empty, and [FindPath] returns the sequence
    0, 2 instead of an empty or failure result. *)
Lemma FindPath_island_reports_no_failure :
  exhausted Z.eqb 10 0%nat 2%nat island
  /\ value (FindPath Z.eqb 10 0%nat 2%nat) island = Ok [0%nat; 2%nat]
  /\ ~ reportsNoPath (value (FindPath Z.eqb 10 0%nat 2%nat) island).
Proof.
  split; [exact island_exhausted|].
  split; [vm_compute; reflexivity|].
  unfold reportsNoPath. vm_compute. discriminate.
Qed.

Lemma FindPath_exhausted_ends_with_goal_witness :
  value (FindPath Z.eqb 10 0%nat 2%nat) island <> AssertionFailed
  /\ value (FindPath Z.eqb 10 0%nat 2%nat) island <> NullDereference
  /\ forall path,
       value (FindPath Z.eqb 10 0%nat 2%nat) island = Ok path ->
       path <> [] /\ exists front, path = front ++ [2%nat].
Proof.
  apply (FindPath_exhausted_ends_with_goal Z.eqb 10 0%nat 2%nat island).
  exact island_exhausted.
Defined.

(** Where C6 fails as stated: the sequence 0, 2 that [FindPath] returns on
    the island has no connection from node 0 to node 2 behind it. *)
Lemma FindPath_island_invalid_path :
  value (FindPath Z.eqb 10 0%nat 2%nat) island = Ok [0%nat; 2%nat]
  /\ ~ validPath (m_pGraph island) [0%nat; 2%nat].
Proof.
  split; [vm_compute; reflexivity|].
  intros [H _]. exact (island_not_joined H).
Qed.

Lemma scenario_reached : reached Z.eqb 10 0%nat 3%nat scenario.
Proof.
  eexists. eexists. split; [vm_compute; reflexivity|]. reflexivity.
Defined.

Lemma FindPath_valid_when_goal_reached_witness :
  validPath (m_pGraph scenario) [0%nat; 1%nat; 3%nat].
Proof.
  apply (FindPath_valid_when_goal_reached Z.eqb 10 0%nat 3%nat scenario).
  - exact scenario_reached.
  - vm_compute. reflexivity.
Defined.

Lemma find_current_never_fails_witness :
  In (Build_NodeRecord 0%nat None 0 0)
     (fst (value (expand 3%nat (Build_NodeRecord 0%nat None 0 0)
                    (GetNodeConnections (m_pGraph scenario) 0)
                    ([Build_NodeRecord 0%nat None 0 0], [])) scenario))
  /\ value (FindPath Z.eqb 10 0%nat 3%nat) scenario <> AssertionFailed.
Proof.
  pose proof (find_current_never_fails Z.eqb scenario
                (fun a => Z.eqb_refl a) scenario_nonNegative) as [Hfind Hcall].
  split.
  - exact (proj1 (Hfind 3%nat (Build_NodeRecord 0%nat None 0 0) [] [])).
  - exact (Hcall 10%nat 0%nat 3%nat).
Defined.


(** * Further properties of the search *)

(** ** Invariants of the two loops *)

Section Invariants.

Variable AreEqual : Z -> Z -> bool.
Variable this : AStar.
Variable goal : NodePtr.

(** What holds of the two lists before the loop over the connections and
    is kept by its body holds after it. *)
Lemma expand_invariant (P : list NodeRecord * list NodeRecord -> Prop)
    (cur : NodeRecord) : forall conns,
  (forall lists c, In c conns -> P lists ->
                   P (value (processConnection goal cur lists c) this)) ->
  forall lists, P lists -> P (value (expand goal cur conns lists) this).
Proof.
  induction conns as [|c conns IH]; intros Hbody lists H; [exact H|].
  rewrite expand_value_cons. apply IH.
  - intros lists' c' Hc'. apply Hbody. right. exact Hc'.
  - apply Hbody; [left; reflexivity | exact H].
Qed.

Lemma expansion_invariant (P : list NodeRecord * list NodeRecord -> Prop)
    (cur : NodeRecord) :
  (forall lists c,
      In c (GetNodeConnections (m_pGraph this)
              (GetIndex (m_pGraph this) (pNode cur))) ->
      P lists -> P (value (processConnection goal cur lists c) this)) ->
  forall lists, P lists -> P (expansion this goal cur lists).
Proof.
  intros Hbody lists H. unfold expansion. apply expand_invariant; assumption.
Qed.

(** What holds of the lists and of the current record before the search
    loop and is kept by one turn holds when the loop is left; it is left
    either with an empty open list, on the record expanded last, or on a
    record of the goal that is still open. *)
Lemma searchLoop_invariant
    (Inv : list NodeRecord -> list NodeRecord -> NodeRecord -> Prop) :
  (forall first rest closedList cur0 openList',
      Inv (first :: rest) closedList cur0 ->
      Nat.eqb (pNode (lowestF (first :: rest) first)) goal = false ->
      findErase AreEqual (lowestF (first :: rest) first)
        (fst (expansion this goal (lowestF (first :: rest) first)
                (first :: rest, closedList)))
      = Some openList' ->
      Inv openList'
          (snd (expansion this goal (lowestF (first :: rest) first)
                  (first :: rest, closedList))
             ++ [lowestF (first :: rest) first])
          (lowestF (first :: rest) first)) ->
  forall fuel openList closedList cur0 cur closedList',
    Inv openList closedList cur0 ->
    value (searchLoop AreEqual fuel goal openList closedList cur0) this
    = Ok (cur, closedList') ->
    exists openList' cur0',
      Inv openList' closedList' cur0'
      /\ ((openList' = [] /\ cur = cur0')
          \/ (In cur openList' /\ pNode cur = goal)).
Proof.
  intros Hstep.
  induction fuel as [|fuel IH]; intros openList closedList cur0 cur closedList'
    HInv H; [discriminate|].
  destruct openList as [|first rest].
  - injection H as <- <-. exists [], cur0. split; [exact HInv|].
    left. split; reflexivity.
  - rewrite searchLoop_examines in H. cbv zeta in H.
    destruct (Nat.eqb (pNode (lowestF (first :: rest) first)) goal) eqn:Egoal.
    + injection H as <- <-. exists (first :: rest), cur0. split; [exact HInv|].
      right. split; [apply lowestF_In | apply Nat.eqb_eq, Egoal].
    + fold (expansion this goal (lowestF (first :: rest) first)
              (first :: rest, closedList)) in H.
      destruct (findErase AreEqual _ _) as [openList'|] eqn:E; [|discriminate].
      apply (IH _ _ _ _ _ (Hstep _ _ _ _ _ HInv Egoal E) H).
Qed.

Lemma search_invariant
    (Inv : list NodeRecord -> list NodeRecord -> NodeRecord -> Prop)
    (fuel : nat) (s : NodePtr) (cur : NodeRecord) (closedList : list NodeRecord) :
  (forall first rest closedList cur0 openList',
      Inv (first :: rest) closedList cur0 ->
      Nat.eqb (pNode (lowestF (first :: rest) first)) goal = false ->
      findErase AreEqual (lowestF (first :: rest) first)
        (fst (expansion this goal (lowestF (first :: rest) first)
                (first :: rest, closedList)))
      = Some openList' ->
      Inv openList'
          (snd (expansion this goal (lowestF (first :: rest) first)
                  (first :: rest, closedList))
             ++ [lowestF (first :: rest) first])
          (lowestF (first :: rest) first)) ->
  Inv [Build_NodeRecord s None 0 (estimate this goal s)] []
      (Build_NodeRecord s None 0 (estimate this goal s)) ->
  value (search AreEqual fuel s goal) this = Ok (cur, closedList) ->
  exists openList' cur0',
    Inv openList' closedList cur0'
    /\ ((openList' = [] /\ cur = cur0')
        \/ (In cur openList' /\ pNode cur = goal)).
Proof.
  intros Hstep Hinit H.
  apply (searchLoop_invariant Inv Hstep fuel _ _ _ _ _ Hinit).
  exact H.
Qed.

End Invariants.

(** ** What a record holds *)

Lemma processConnection_priced this goal cur openList closedList c :
  Forall (recordPriced this goal) openList ->
  Forall (recordPriced this goal) closedList ->
  Forall (recordPriced this goal)
    (fst (value (processConnection goal cur (openList, closedList) c) this))
  /\ Forall (recordPriced this goal)
    (snd (value (processConnection goal cur (openList, closedList) c) this)).
Proof.
  intros Hopen Hclosed. rewrite processConnection_value. cbv zeta.
  pose proof (Forall_incl _ _ _ (scanClosed_incl
    (GetNode (m_pGraph this) (GetTo (m_pGraph this) c))
    (GetCost (m_pGraph this) c + gCost cur) closedList) Hclosed) as Kc.
  pose proof (Forall_incl _ _ _ (scanOpen_incl
    (GetNode (m_pGraph this) (GetTo (m_pGraph this) c))
    (GetCost (m_pGraph this) c + gCost cur) openList) Hopen) as Ko.
  destruct (fst (scanClosed _ _ closedList)); [split; assumption|].
  destruct (fst (scanOpen _ _ openList)); simpl; split; try assumption.
  apply Forall_app. split; [exact Ko|].
  constructor; [|constructor]. reflexivity.
Qed.

(** X1: every record the search leaves behind, the current one and the
    closed ones, has [fCost] equal to its [gCost] plus the estimate from
    its node to the goal. *)
Theorem search_records_priced (AreEqual : Z -> Z -> bool) (fuel : nat)
    (pStartNode pGoalNode : NodePtr) (this : AStar)
    (cur : NodeRecord) (closedList : list NodeRecord) :
  value (search AreEqual fuel pStartNode pGoalNode) this = Ok (cur, closedList) ->
  fCost cur = gCost cur + value (GetHeuristicCost (pNode cur) pGoalNode) this
  /\ forall r, In r closedList ->
       fCost r = gCost r + value (GetHeuristicCost (pNode r) pGoalNode) this.
Proof.
  intros H.
  destruct (search_invariant AreEqual this pGoalNode
              (fun openList closedList cur0 =>
                 Forall (recordPriced this pGoalNode) openList
                 /\ Forall (recordPriced this pGoalNode) closedList
                 /\ recordPriced this pGoalNode cur0)
              fuel pStartNode cur closedList) as (openList' & cur0' & HInv & Hexit);
    try exact H.
  - intros first rest closed cur0 openList' (Ho & Hc & _) _ E.
    assert (recordPriced this pGoalNode (lowestF (first :: rest) first)) as Hsel.
    { rewrite Forall_forall in Ho. apply Ho, lowestF_In. }
    destruct (expansion_invariant this pGoalNode
                (fun lists => Forall (recordPriced this pGoalNode) (fst lists)
                              /\ Forall (recordPriced this pGoalNode) (snd lists))
                (lowestF (first :: rest) first)) with (lists := (first :: rest, closed))
      as [Ko Kc].
    + intros [o c0] c _ [Ho' Hc']. apply processConnection_priced; assumption.
    + split; assumption.
    + split; [|split].
      * exact (Forall_incl _ _ _ (findErase_incl _ _ _ _ E) Ko).
      * apply Forall_app. split; [exact Kc | constructor; [exact Hsel | constructor]].
      * exact Hsel.
  - repeat split; try constructor; try reflexivity. constructor.
  - destruct HInv as (Ho & Hc & Hcur0).
    split.
    + destruct Hexit as [[_ ->]|[Hin _]]; [exact Hcur0|].
      rewrite Forall_forall in Ho. apply Ho, Hin.
    + rewrite Forall_forall in Hc. exact Hc.
Qed.

Lemma search_records_priced_witness :
  fCost (Build_NodeRecord 3%nat (Some 3%nat) 30 30)
  = gCost (Build_NodeRecord 3%nat (Some 3%nat) 30 30)
    + value (GetHeuristicCost
               (pNode (Build_NodeRecord 3%nat (Some 3%nat) 30 30)) 3%nat) detour
  /\ forall r,
       In r [Build_NodeRecord 0%nat None 0 16;
             Build_NodeRecord 2%nat (Some 1%nat) 1 13] ->
       fCost r = gCost r + value (GetHeuristicCost (pNode r) 3%nat) detour.
Proof.
  apply (search_records_priced Z.eqb 4 0%nat 3%nat detour).
  vm_compute. reflexivity.
Defined.

(** ** One record per node *)

Lemma NodeRecord_eq_same_node AreEqual r other :
  NodeRecord_eq AreEqual r other = true -> pNode r = pNode other.
Proof.
  unfold NodeRecord_eq. intro H.
  destruct (Nat.eqb_spec (pNode r) (pNode other)) as [E|_]; [exact E|].
  simpl in H. discriminate.
Qed.

Lemma findErase_match AreEqual cur : forall l l',
  findErase AreEqual cur l = Some l' ->
  exists r, In r l /\ pNode r = pNode cur.
Proof.
  induction l as [|r l IH]; simpl; intros l' H; [discriminate|].
  destruct (NodeRecord_eq AreEqual r cur) eqn:E.
  - exists r. split; [left; reflexivity | exact (NodeRecord_eq_same_node _ _ _ E)].
  - destruct (findErase AreEqual cur l) as [l0|]; [|discriminate].
    destruct (IH l0 eq_refl) as (x & Hx & Hn).
    exists x. split; [right; exact Hx | exact Hn].
Qed.

(** After [std::find] and [erase] no open record of the node is left. *)
Lemma findErase_node_gone AreEqual cur : forall l l',
  findErase AreEqual cur l = Some l' ->
  distinctNodes l ->
  ~ In (pNode cur) (map pNode l').
Proof.
  unfold distinctNodes.
  induction l as [|r l IH]; simpl; intros l' H D; [discriminate|].
  inversion D as [|? ? Hr Hl]; subst.
  destruct (NodeRecord_eq AreEqual r cur) eqn:E.
  - injection H as <-. rewrite <- (NodeRecord_eq_same_node _ _ _ E). exact Hr.
  - destruct (findErase AreEqual cur l) as [l0|] eqn:E0; [|discriminate].
    injection H as <-. simpl. intros [Hhead|Htail].
    + destruct (findErase_match _ _ _ _ E0) as (x & Hx & Hn).
      apply Hr. rewrite Hhead, <- Hn. apply in_map, Hx.
    + exact (IH l0 eq_refl Hl Htail).
Qed.

Lemma scanClosed_distinct target g l :
  distinctNodes l -> distinctNodes (snd (scanClosed target g l)).
Proof.
  unfold distinctNodes.
  induction l as [|r l IH]; simpl; intros H; [exact H|].
  inversion H as [|? ? Hr Hl]; subst.
  pose proof (scanClosed_incl target g l) as Hincl.
  destruct (Nat.eqb (pNode r) target).
  - destruct (gCost r >? g); simpl; [exact Hl|].
    constructor; [|apply IH, Hl].
    intro Hx. apply Hr. exact (incl_map_pNode l _ _ Hincl Hx).
  - destruct (scanClosed target g l) as [b l']. simpl in *.
    constructor; [|apply IH, Hl].
    intro Hx. apply Hr. exact (incl_map_pNode l l' _ Hincl Hx).
Qed.

Lemma flag_false_absent target l :
  existsb (fun x => Nat.eqb (pNode x) target) l = false ->
  forall x, In x l -> pNode x <> target.
Proof.
  intros H x Hx E.
  assert (existsb (fun x => Nat.eqb (pNode x) target) l = true) as T.
  { apply existsb_exists. exists x. split; [exact Hx|].
    rewrite E. apply Nat.eqb_refl. }
  rewrite T in H. discriminate.
Qed.

Lemma apart_incl openList closedList openList' closedList' :
  incl openList' openList -> incl closedList' closedList ->
  apart openList closedList -> apart openList' closedList'.
Proof.
  intros Ho Hc H x y Hx Hy. apply H; [apply Ho, Hx | apply Hc, Hy].
Qed.

Lemma processConnection_separate this goal cur openList closedList c :
  distinctNodes openList -> distinctNodes closedList ->
  apart openList closedList ->
  distinctNodes (fst (value (processConnection goal cur (openList, closedList) c) this))
  /\ distinctNodes (snd (value (processConnection goal cur (openList, closedList) c) this))
  /\ apart (fst (value (processConnection goal cur (openList, closedList) c) this))
           (snd (value (processConnection goal cur (openList, closedList) c) this)).
Proof.
  intros Do Dc Ha.
  pose proof (processConnection_distinct goal cur openList closedList c this Do) as Do'.
  rewrite processConnection_value in *. cbv zeta in *.
  pose proof (scanClosed_distinct
    (GetNode (m_pGraph this) (GetTo (m_pGraph this) c))
    (GetCost (m_pGraph this) c + gCost cur) closedList Dc) as Dc'.
  pose proof (scanClosed_incl
    (GetNode (m_pGraph this) (GetTo (m_pGraph this) c))
    (GetCost (m_pGraph this) c + gCost cur) closedList) as Ic.
  pose proof (scanOpen_incl
    (GetNode (m_pGraph this) (GetTo (m_pGraph this) c))
    (GetCost (m_pGraph this) c + gCost cur) openList) as Io.
  destruct (fst (scanClosed _ _ closedList)) eqn:Ec.
  - simpl in *. repeat split; try assumption.
    exact (apart_incl _ _ _ _ (incl_refl _) Ic Ha).
  - destruct (fst (scanOpen _ _ openList)) eqn:Eo; simpl in *;
      repeat split; try assumption.
    + exact (apart_incl _ _ _ _ Io Ic Ha).
    + intros x y Hx Hy. apply in_app_or in Hx. destruct Hx as [Hx|[<-|[]]].
      * apply Ha; [apply Io, Hx | apply Ic, Hy].
      * simpl. rewrite scanClosed_flag in Ec.
        intro E. exact (flag_false_absent _ _ Ec y (Ic y Hy) (eq_sym E)).
Qed.

Lemma expansion_separate this goal cur lists :
  separate (fst lists) (snd lists) ->
  separate (fst (expansion this goal cur lists)) (snd (expansion this goal cur lists)).
Proof.
  apply (expansion_invariant this goal
           (fun lists => separate (fst lists) (snd lists)) cur).
  intros [o c0] c _ (Do & Dc & Ha). simpl in *.
  apply processConnection_separate; assumption.
Qed.

(** One turn of the search loop keeps the lists separate. *)
Lemma turn_separate AreEqual this goal cur openList closedList openList' :
  separate openList closedList ->
  findErase AreEqual cur (fst (expansion this goal cur (openList, closedList)))
  = Some openList' ->
  separate openList'
    (snd (expansion this goal cur (openList, closedList)) ++ [cur]).
Proof.
  intros Hsep E.
  destruct (expansion_separate this goal cur (openList, closedList) Hsep)
    as (Do & Dc & Ha).
  pose proof (findErase_incl _ _ _ _ E) as Io.
  pose proof (findErase_node_gone _ _ _ _ E Do) as Hgone.
  destruct (findErase_match _ _ _ _ E) as (x & Hx & Hn).
  split; [|split].
  - exact (findErase_distinct _ _ _ _ E Do).
  - unfold distinctNodes in *. rewrite map_app. simpl.
    apply NoDup_app; [exact Dc | constructor; [intros [] | constructor] |].
    intros n Hin [<-|[]].
    apply in_map_iff in Hin. destruct Hin as (y & Hy & Hyin).
    apply (Ha x y Hx Hyin). rewrite Hn, Hy. reflexivity.
  - intros a b Hin Hb. apply in_app_or in Hb. destruct Hb as [Hb|[<-|[]]].
    + apply Ha; [apply Io, Hin | exact Hb].
    + intro E'. apply Hgone. rewrite <- E'. apply in_map, Hin.
Qed.

(** How the search loop is left: with separate lists, and either with an
    empty open list on a closed record that is not a record of the goal,
    or on an open record of the goal. *)
Lemma search_exit_separate (AreEqual : Z -> Z -> bool) (fuel : nat)
    (pStartNode pGoalNode : NodePtr) (this : AStar)
    (cur : NodeRecord) (closedList : list NodeRecord) :
  value (search AreEqual fuel pStartNode pGoalNode) this = Ok (cur, closedList) ->
  exists openList',
    separate openList' closedList
    /\ ((openList' = [] /\ pNode cur <> pGoalNode /\ In cur closedList)
        \/ (In cur openList' /\ pNode cur = pGoalNode)).
Proof.
  intros H.
  destruct (search_invariant AreEqual this pGoalNode
              (fun openList closedList cur0 =>
                 separate openList closedList
                 /\ (openList <> []
                     \/ (pNode cur0 <> pGoalNode /\ In cur0 closedList)))
              fuel pStartNode cur closedList) as (openList' & cur0' & HInv & Hexit);
    try exact H.
  - intros first rest closed cur0 openList' (Hsep & _) Egoal E. split.
    + exact (turn_separate _ _ _ _ _ _ _ Hsep E).
    + right. split; [apply Nat.eqb_neq, Egoal|].
      apply in_or_app. right. left. reflexivity.
  - split; [|left; discriminate].
    split; [|split].
    + unfold distinctNodes. simpl. constructor; [intros [] | constructor].
    + unfold distinctNodes. simpl. constructor.
    + intros x y _ [].
  - destruct HInv as (Hsep & Hlast). exists openList'. split; [exact Hsep|].
    destruct Hexit as [[-> ->]|[Hin Hgoal]].
    + left. destruct Hlast as [Hne|[Hne Hin]]; [contradiction Hne; reflexivity|].
      split; [reflexivity | split; assumption].
    + right. split; assumption.
Qed.

(** X2: the closed list the search leaves behind never holds two records
    of one node. When the loop was left on a record of the goal, the goal
    has no closed record; otherwise the record it was left on is itself a
    closed record. *)
Theorem search_closed_distinct (AreEqual : Z -> Z -> bool) (fuel : nat)
    (pStartNode pGoalNode : NodePtr) (this : AStar)
    (cur : NodeRecord) (closedList : list NodeRecord) :
  value (search AreEqual fuel pStartNode pGoalNode) this = Ok (cur, closedList) ->
  NoDup (map pNode closedList)
  /\ ((pNode cur = pGoalNode /\ ~ In pGoalNode (map pNode closedList))
      \/ (pNode cur <> pGoalNode /\ In cur closedList)).
Proof.
  intros H.
  destruct (search_exit_separate _ _ _ _ _ _ _ H)
    as (openList' & (_ & Dc & Ha) & Hexit).
  split; [exact Dc|].
  destruct Hexit as [(_ & Hne & Hin)|[Hin Hgoal]].
  - right. split; assumption.
  - left. split; [exact Hgoal|].
    intro Hc. apply in_map_iff in Hc. destruct Hc as (y & Hy & Hyin).
    apply (Ha cur y Hin Hyin). rewrite Hy, Hgoal. reflexivity.
Qed.

Lemma search_closed_distinct_witness :
  NoDup (map pNode [Build_NodeRecord 0%nat None 0 0;
                    Build_NodeRecord 1%nat (Some 0%nat) 1 1])
  /\ ((pNode (Build_NodeRecord 1%nat (Some 0%nat) 1 1) = 2%nat
       /\ ~ In 2%nat (map pNode [Build_NodeRecord 0%nat None 0 0;
                                 Build_NodeRecord 1%nat (Some 0%nat) 1 1]))
      \/ (pNode (Build_NodeRecord 1%nat (Some 0%nat) 1 1) <> 2%nat
          /\ In (Build_NodeRecord 1%nat (Some 0%nat) 1 1)
                [Build_NodeRecord 0%nat None 0 0;
                 Build_NodeRecord 1%nat (Some 0%nat) 1 1])).
Proof.
  apply (search_closed_distinct Z.eqb 10 0%nat 2%nat island).
  vm_compute. reflexivity.
Defined.

(** ** What a call never does, and where a returned path starts and ends *)

Lemma searchLoop_no_null AreEqual goal this :
  forall fuel openList closedList cur0,
    value (searchLoop AreEqual fuel goal openList closedList cur0) this
    <> NullDereference.
Proof.
  induction fuel as [|fuel IH]; intros openList closedList cur0; [discriminate|].
  destruct openList as [|first rest]; [discriminate|].
  rewrite searchLoop_examines. cbv zeta.
  destruct (Nat.eqb _ goal); [discriminate|].
  destruct (findErase AreEqual _ _); [apply IH | discriminate].
Qed.

(** X3: no call of [FindPath] dereferences the null connection pointer of
    the start record: the reconstruction reads a record's connection only
    when the record is not a record of the start node, and every other
    record has a connection. *)
Theorem FindPath_never_dereferences_null (AreEqual : Z -> Z -> bool)
    (fuel : nat) (pStartNode pGoalNode : NodePtr) (this : AStar) :
  value (FindPath AreEqual fuel pStartNode pGoalNode) this <> NullDereference.
Proof.
  rewrite FindPath_value.
  destruct (value (search AreEqual fuel pStartNode pGoalNode) this)
    as [[cur closedList]| | |] eqn:E; try discriminate.
  - destruct (search_sound _ _ _ _ _ _ _ E) as [Hcur Hclosed].
    pose proof (reconstruct_no_null pStartNode closedList this Hclosed fuel cur
                  [pGoalNode] Hcur) as N.
    destruct (value (reconstruct fuel pStartNode cur closedList [pGoalNode]) this);
      simpl; try discriminate. contradiction.
  - exfalso. unfold search in E. run_monad.
    exact (searchLoop_no_null AreEqual pGoalNode this _ _ _ _ E).
Qed.

(** The node pushed last is the node of the current record, so the
    reversed path starts at the start node when the loop is left. *)
Lemma reconstruct_starts s closedList this : forall fuel cur path p,
  (exists front, rev path = pNode cur :: front) ->
  value (reconstruct fuel s cur closedList path) this = Ok p ->
  exists front, rev p = s :: front.
Proof.
  induction fuel as [|fuel IH]; intros cur path p Hlast H; [discriminate|].
  rewrite reconstruct_value_step in H.
  destruct (Nat.eqb_spec (pNode cur) s) as [Es|_].
  - injection H as <-. rewrite <- Es. exact Hlast.
  - destruct (value (scanPredecessor cur closedList) this) as [[r|]| | |];
      try discriminate.
    + apply (IH r (path ++ [pNode r]) p); [|exact H].
      rewrite rev_unit. eexists. reflexivity.
    + apply (IH cur path p); assumption.
Qed.

(** X4: a sequence returned after the loop was left on a record of the
    goal starts with the start node and ends with the goal node. *)
Theorem FindPath_endpoints (AreEqual : Z -> Z -> bool) (fuel : nat)
    (pStartNode pGoalNode : NodePtr) (this : AStar) (path : list NodePtr) :
  reached AreEqual fuel pStartNode pGoalNode this ->
  value (FindPath AreEqual fuel pStartNode pGoalNode) this = Ok path ->
  hd_error path = Some pStartNode
  /\ exists front, path = front ++ [pGoalNode].
Proof.
  intros (cur & closedList & Hsearch & Hgoal) H.
  rewrite FindPath_value, Hsearch in H.
  destruct (value (reconstruct fuel pStartNode cur closedList [pGoalNode]) this)
    as [p| | |] eqn:E; try discriminate.
  injection H as <-. split.
  - destruct (reconstruct_starts pStartNode closedList this fuel cur [pGoalNode] p)
      as [front Hfront]; [|exact E|].
    + exists []. simpl. rewrite Hgoal. reflexivity.
    + rewrite Hfront. reflexivity.
  - apply reconstruct_extends in E. destruct E as [more ->].
    exists (rev more). reflexivity.
Qed.

Lemma FindPath_endpoints_witness :
  hd_error [0%nat; 1%nat; 3%nat] = Some 0%nat
  /\ exists front, [0%nat; 1%nat; 3%nat] = front ++ [3%nat].
Proof.
  apply (FindPath_endpoints Z.eqb 10 0%nat 3%nat scenario).
  - exact scenario_reached.
  - vm_compute. reflexivity.
Defined.

(** ** The tolerance of the comparison *)

(** X5: on a graph without negative costs the outcome of [FindPath], and
    of its search loop, is the same whatever reflexive comparison
    [AreEqual] is: the tolerance never decides which open record
    [std::find] erases. *)
Theorem FindPath_same_for_every_tolerance (AreEqual AreEqual' : Z -> Z -> bool)
    (fuel : nat) (pStartNode pGoalNode : NodePtr) (this : AStar) :
  (forall a, AreEqual a a = true) ->
  (forall a, AreEqual' a a = true) ->
  nonNegativeCosts (m_pGraph this) ->
  value (FindPath AreEqual fuel pStartNode pGoalNode) this
  = value (FindPath AreEqual' fuel pStartNode pGoalNode) this
  /\ value (search AreEqual fuel pStartNode pGoalNode) this
     = value (search AreEqual' fuel pStartNode pGoalNode) this.
Proof.
  intros H H' Hcost. split.
  - apply FindPath_tolerance; assumption.
  - apply search_tolerance; assumption.
Qed.

Lemma within_refl eps a : 0 <= eps -> within eps a a = true.
Proof.
  intro H. unfold within. rewrite Z.sub_diag. simpl. apply Z.leb_le. exact H.
Qed.

Lemma FindPath_same_for_every_tolerance_witness :
  value (FindPath Z.eqb 10 0%nat 3%nat) scenario
  = value (FindPath (within 2) 10 0%nat 3%nat) scenario
  /\ value (search Z.eqb 10 0%nat 3%nat) scenario
     = value (search (within 2) 10 0%nat 3%nat) scenario.
Proof.
  apply (FindPath_same_for_every_tolerance Z.eqb (within 2) 10 0%nat 3%nat scenario).
  - intro a. apply Z.eqb_refl.
  - intro a. apply within_refl. lia.
  - exact scenario_nonNegative.
Defined.

(** ** The estimate *)

(** X6: [GetHeuristicCost] hands the heuristic function two non-negative
    distances and does not depend on the order of its two nodes; from a
    node to itself it is the heuristic of no distance at all. *)
Theorem GetHeuristicCost_symmetric (a b : NodePtr) (this : AStar) :
  value (GetHeuristicCost a b) this = value (GetHeuristicCost b a) this
  /\ value (GetHeuristicCost a a) this = m_HeuristicFunction this 0 0
  /\ exists dx dy, 0 <= dx /\ 0 <= dy
       /\ value (GetHeuristicCost a b) this = m_HeuristicFunction this dx dy.
Proof.
  unfold value, GetHeuristicCost. run_monad. split; [|split].
  - f_equal.
    + rewrite <- Z.abs_opp. f_equal. lia.
    + rewrite <- Z.abs_opp. f_equal. lia.
  - rewrite !Z.sub_diag. reflexivity.
  - eexists. eexists. split; [|split; [|reflexivity]]; apply Z.abs_nonneg.
Qed.

(** ** A connection of negative cost from the start node to itself *)

Lemma expand_value_app goal cur this : forall before after lists,
  value (expand goal cur (before ++ after) lists) this
  = value (expand goal cur after (value (expand goal cur before lists) this)) this.
Proof.
  induction before as [|c before IH]; intros after lists; [reflexivity|].
  simpl app. rewrite !expand_value_cons. apply IH.
Qed.

(** After the open scan a record of the target that is still open costs
    no more than the candidate. *)
Lemma scanOpen_cheaper target g l :
  distinctNodes l ->
  forall x, In x (snd (scanOpen target g l)) -> pNode x = target -> gCost x <= g.
Proof.
  unfold distinctNodes.
  induction l as [|r l IH]; simpl; intros D x Hx Hn; [contradiction|].
  inversion D as [|? ? Hr Hl]; subst.
  destruct (Nat.eqb_spec (pNode r) (pNode x)) as [E|N].
  - simpl in Hx.
    assert (~ In x l) as Hout.
    { intro Hin. apply Hr. rewrite E. apply in_map, Hin. }
    destruct (Z.gtb_spec (gCost r) g) as [Hg|Hg].
    + contradiction.
    + destruct Hx as [<-|Hx]; [lia | contradiction].
  - pose proof (scanOpen_incl (pNode x) g l) as Hincl.
    destruct (scanOpen (pNode x) g l) as [b l'] eqn:Es. simpl in *.
    destruct Hx as [<-|Hx]; [contradiction N; reflexivity|].
    apply (IH Hl x Hx eq_refl).
Qed.

Lemma search_value AreEqual fuel s g this :
  value (search AreEqual fuel s g) this
  = value (searchLoop AreEqual fuel g
             [Build_NodeRecord s None 0 (estimate this g s)] []
             (Build_NodeRecord s None 0 (estimate this g s))) this.
Proof. reflexivity. Qed.

Section NegativeLoop.

Variable this : AStar.
Variables pStartNode goal : NodePtr.

Let startRecord : NodeRecord :=
  Build_NodeRecord pStartNode None 0 (estimate this goal pStartNode).

(** While the start record is expanded the closed list stays empty and
    every other open record has a connection. *)
Lemma first_expansion_body c lists :
  (snd lists = [] /\ distinctNodes (fst lists)
   /\ forall r, In r (fst lists) -> pConnection r <> None \/ r = startRecord) ->
  snd (value (processConnection goal startRecord lists c) this) = []
  /\ distinctNodes (fst (value (processConnection goal startRecord lists c) this))
  /\ forall r, In r (fst (value (processConnection goal startRecord lists c) this)) ->
               pConnection r <> None \/ r = startRecord.
Proof.
  destruct lists as [openList closedList]. cbn [fst snd]. intros (-> & D & H).
  pose proof (processConnection_distinct goal startRecord openList [] c this D) as D'.
  rewrite processConnection_value in *. cbv zeta in *.
  cbn [scanClosed fst snd] in *.
  pose proof (scanOpen_incl
    (GetNode (m_pGraph this) (GetTo (m_pGraph this) c))
    (GetCost (m_pGraph this) c + gCost startRecord) openList) as Io.
  destruct (fst (scanOpen _ _ openList)); cbn [fst snd] in *;
    (split; [reflexivity | split; [exact D'|]]).
  - intros r Hr. apply H, Io, Hr.
  - intros r Hr. apply in_app_or in Hr. destruct Hr as [Hr|[<-|[]]].
    + apply H, Io, Hr.
    + left. discriminate.
Qed.

Lemma later_expansion_body c lists :
  (forall r, In r (fst lists) -> pConnection r <> None) ->
  forall r, In r (fst (value (processConnection goal startRecord lists c) this)) ->
            pConnection r <> None.
Proof.
  destruct lists as [openList closedList]. cbn [fst snd]. intros H.
  rewrite processConnection_value. cbv zeta.
  pose proof (scanOpen_incl
    (GetNode (m_pGraph this) (GetTo (m_pGraph this) c))
    (GetCost (m_pGraph this) c + gCost startRecord) openList) as Io.
  destruct (fst (scanClosed _ _ closedList)); cbn [fst snd]; [exact H|].
  destruct (fst (scanOpen _ _ openList)); cbn [fst snd].
  - intros r Hr. apply H, Io, Hr.
  - intros r Hr. apply in_app_or in Hr. destruct Hr as [Hr|[<-|[]]].
    + apply H, Io, Hr.
    + discriminate.
Qed.

Lemma negative_loop_body c lists :
  targetOf (m_pGraph this) c = pStartNode ->
  GetCost (m_pGraph this) c < 0 ->
  (snd lists = [] /\ distinctNodes (fst lists)
   /\ forall r, In r (fst lists) -> pConnection r <> None \/ r = startRecord) ->
  forall r, In r (fst (value (processConnection goal startRecord lists c) this)) ->
            pConnection r <> None.
Proof.
  destruct lists as [openList closedList]. cbn [fst snd].
  intros Ht Hc (-> & D & H).
  rewrite processConnection_value. cbv zeta. cbn [scanClosed fst snd].
  fold (targetOf (m_pGraph this) c). rewrite Ht.
  change (gCost startRecord) with 0.
  pose proof (scanOpen_incl pStartNode (GetCost (m_pGraph this) c + 0) openList) as Io.
  pose proof (scanOpen_cheaper pStartNode (GetCost (m_pGraph this) c + 0) openList D)
    as Hcheap.
  assert (forall r, In r (snd (scanOpen pStartNode (GetCost (m_pGraph this) c + 0)
                                 openList)) -> pConnection r <> None) as K.
  { intros r Hr. destruct (H r (Io r Hr)) as [Hconn| ->]; [exact Hconn|].
    specialize (Hcheap _ Hr eq_refl). simpl in Hcheap. lia. }
  destruct (fst (scanOpen _ _ openList)); cbn [fst snd]; [exact K|].
  intros r Hr. apply in_app_or in Hr. destruct Hr as [Hr|[<-|[]]].
  - apply K, Hr.
  - discriminate.
Qed.

Lemma findErase_start_gone AreEqual : forall l,
  (forall r, In r l -> pConnection r <> None) ->
  findErase AreEqual startRecord l = None.
Proof.
  induction l as [|r l IH]; intros H; [reflexivity|].
  simpl. unfold NodeRecord_eq at 1.
  destruct (pConnection r) as [c|] eqn:E.
  - simpl. rewrite andb_false_r. simpl.
    rewrite IH; [reflexivity|]. intros x Hx. apply H. right. exact Hx.
  - exfalso. apply (H r); [left; reflexivity | exact E].
Qed.

End NegativeLoop.

(** X7: when the start node, which is not the goal, has a connection of
    negative cost to itself, the first turn of the search loop erases the
    start record from the open list while expanding it, [std::find] does
    not find it again, and the call ends in the assertion. *)
Theorem negative_loop_at_start_asserts (AreEqual : Z -> Z -> bool) (fuel : nat)
    (pStartNode pGoalNode : NodePtr) (this : AStar) (c : ConnectionPtr) :
  pStartNode <> pGoalNode ->
  In c (GetNodeConnections (m_pGraph this) (GetIndex (m_pGraph this) pStartNode)) ->
  GetNode (m_pGraph this) (GetTo (m_pGraph this) c) = pStartNode ->
  GetCost (m_pGraph this) c < 0 ->
  value (FindPath AreEqual (S fuel) pStartNode pGoalNode) this = AssertionFailed.
Proof.
  intros Hne Hin Ht Hcost.
  rewrite FindPath_value, search_value.
  set (startRecord := Build_NodeRecord pStartNode None 0
                        (estimate this pGoalNode pStartNode)).
  rewrite searchLoop_examines. cbv zeta.
  assert (lowestF [startRecord] startRecord = startRecord) as Esel.
  { unfold lowestF. simpl. rewrite Z.ltb_irrefl. reflexivity. }
  rewrite Esel. change (pNode startRecord) with pStartNode.
  destruct (Nat.eqb_spec pStartNode pGoalNode) as [E|_]; [contradiction|].
  apply in_split in Hin. destruct Hin as (before & later & ->).
  rewrite expand_value_app, expand_value_cons.
  rewrite (findErase_start_gone this pStartNode pGoalNode AreEqual); [reflexivity|].
  apply (expand_invariant this pGoalNode
           (fun lists => forall r, In r (fst lists) -> pConnection r <> None)
           startRecord later).
  - intros lists c' _. apply later_expansion_body.
  - apply negative_loop_body; [exact Ht | exact Hcost|].
    apply (expand_invariant this pGoalNode
             (fun lists => snd lists = [] /\ distinctNodes (fst lists)
                /\ forall r, In r (fst lists) ->
                     pConnection r <> None \/ r = startRecord)
             startRecord before).
    + intros lists c' _. apply first_expansion_body.
    + simpl. split; [reflexivity | split].
      * unfold distinctNodes. simpl. constructor; [intros [] | constructor].
      * intros r [<-|[]]. right. reflexivity.
Qed.

Lemma negative_loop_at_start_asserts_witness :
  value (FindPath Z.eqb (S 9) 0%nat 1%nat) loop = AssertionFailed.
Proof.
  apply (negative_loop_at_start_asserts Z.eqb 9 0%nat 1%nat loop 1%nat).
  - discriminate.
  - vm_compute. right. left. reflexivity.
  - vm_compute. reflexivity.
  - vm_compute. reflexivity.
Defined.

(** ** A consistent heuristic *)

Lemma scanClosed_unchanged target g l :
  (forall y, In y l -> pNode y = target -> gCost y <= g) ->
  snd (scanClosed target g l) = l.
Proof.
  induction l as [|r l IH]; intros H; simpl; [reflexivity|].
  assert (snd (scanClosed target g l) = l) as E
    by (apply IH; intros y Hy; apply H; right; exact Hy).
  destruct (Nat.eqb_spec (pNode r) target) as [Hr|_].
  - destruct (Z.gtb_spec (gCost r) g) as [Hg|_].
    + specialize (H r (or_introl eq_refl) Hr). lia.
    + simpl. rewrite E. reflexivity.
  - destruct (scanClosed target g l) as [b l']. simpl in *. rewrite E. reflexivity.
Qed.

Lemma scanOpen_keeps_other target g cur l :
  In cur l -> pNode cur <> target -> In cur (snd (scanOpen target g l)).
Proof.
  intros Hin Hn.
  induction l as [|r l IH]; simpl; [contradiction|].
  destruct (Nat.eqb_spec (pNode r) target) as [Hr|_].
  - simpl. destruct Hin as [->|Hin]; [contradiction|].
    destruct (gCost r >? g); [exact Hin | right; exact Hin].
  - destruct (scanOpen target g l) as [b l']. simpl in *.
    destruct Hin as [->|Hin]; [left; reflexivity | right; apply IH, Hin].
Qed.

Lemma predecessorIn_incl g s r l l' :
  incl l l' -> predecessorIn g s r l -> predecessorIn g s r l'.
Proof.
  unfold predecessorIn. intros Hincl H.
  destruct (pConnection r); [|exact H].
  apply in_map_iff in H. destruct H as (y & <- & Hy). apply in_map, Hincl, Hy.
Qed.

Lemma StronglySorted_snoc (l : list Z) (x : Z) :
  StronglySorted Z.le l -> Forall (fun y => y <= x) l ->
  StronglySorted Z.le (l ++ [x]).
Proof.
  induction 1 as [|a l Hl IH Ha]; intros H; simpl.
  - constructor; constructor.
  - inversion H as [|? ? Hax Hlx]; subst.
    constructor; [apply IH, Hlx|].
    apply Forall_app. split; [exact Ha | constructor; [exact Hax | constructor]].
Qed.

Section Consistent.

Variable AreEqual : Z -> Z -> bool.
Hypothesis AreEqual_refl : forall a, AreEqual a a = true.

Variable this : AStar.
Variables pStartNode goal : NodePtr.

Hypothesis heuristic_consistent : consistent this goal.

(** A closed record of the target cannot cost more than the candidate. *)
Lemma consistent_body cur closedList c lists :
  In c (GetNodeConnections (m_pGraph this) (GetIndex (m_pGraph this) (pNode cur))) ->
  recordPriced this goal cur ->
  Forall (recordPriced this goal) closedList ->
  (forall y, In y closedList -> fCost y <= fCost cur) ->
  snd lists = closedList ->
  snd (value (processConnection goal cur lists c) this) = closedList.
Proof.
  intros Hc Hcur Hclosed Hle. destruct lists as [openList closed0].
  cbn [snd]. intros ->.
  rewrite processConnection_value. cbv zeta.
  assert (snd (scanClosed (GetNode (m_pGraph this) (GetTo (m_pGraph this) c))
                 (GetCost (m_pGraph this) c + gCost cur) closedList) = closedList) as E.
  { apply scanClosed_unchanged. intros y Hy Hn.
    specialize (Hle y Hy). rewrite Forall_forall in Hclosed.
    specialize (Hclosed y Hy). unfold recordPriced in *.
    specialize (heuristic_consistent (pNode cur) c Hc).
    unfold targetOf in heuristic_consistent. rewrite Hn in Hclosed. lia. }
  destruct (fst (scanClosed _ _ closedList)); cbn [snd]; [exact E|].
  destruct (fst (scanOpen _ _ openList)); cbn [snd]; exact E.
Qed.

End Consistent.


Lemma lowestF_least first rest :
  forall x, In x (first :: rest) -> fCost (lowestF (first :: rest) first) <= fCost x.
Proof.
  destruct (lowestF_firstLowest first rest) as (earlier & later & E & Hlt & Hle).
  intros x Hx. rewrite E in Hx. apply in_app_or in Hx.
  destruct Hx as [Hx|[<-|Hx]].
  - specialize (Hlt x Hx). lia.
  - lia.
  - apply Hle, Hx.
Qed.

Section ConsistentSearch.

Variable AreEqual : Z -> Z -> bool.
Hypothesis AreEqual_refl : forall a, AreEqual a a = true.

Variable this : AStar.
Variables pStartNode goal : NodePtr.
Variable nodes : list NodePtr.

Hypothesis heuristic_consistent : consistent this goal.
Hypothesis graph_wellFormed : wellFormed (m_pGraph this).
Hypothesis graph_within : leadsWithin (m_pGraph this) nodes.

Lemma expanding_body cur closedList c lists :
  In c (GetNodeConnections (m_pGraph this) (GetIndex (m_pGraph this) (pNode cur))) ->
  recordPriced this goal cur ->
  distinctNodes closedList ->
  Forall (recordPriced this goal) closedList ->
  (forall y, In y closedList -> fCost y <= fCost cur) ->
  expanding this pStartNode goal nodes cur closedList lists ->
  expanding this pStartNode goal nodes cur closedList
    (value (processConnection goal cur lists c) this).
Proof.
  intros Hc Hcur Dc Hclosed Hle (Hsnd & Do & Ha & Hp & Hf & Hn & Hpred & Hin).
  pose proof (consistent_body this goal heuristic_consistent cur closedList c lists
                Hc Hcur Hclosed Hle Hsnd) as Esnd.
  destruct lists as [openList closed0]. cbn [fst snd] in *. subst closed0.
  pose proof (processConnection_separate this goal cur openList closedList c
                Do Dc Ha) as (Do' & _ & Ha').
  rewrite Esnd in Ha'.
  pose proof (heuristic_consistent (pNode cur) c Hc) as Hcons.
  unfold targetOf in Hcons.
  split; [exact Esnd | split; [exact Do' | split; [exact Ha'|]]].
  clear Do' Ha' Esnd.
  rewrite processConnection_value. cbv zeta.
  pose proof (scanOpen_incl
    (GetNode (m_pGraph this) (GetTo (m_pGraph this) c))
    (GetCost (m_pGraph this) c + gCost cur) openList) as Io.
  assert (In cur (snd (scanOpen (GetNode (m_pGraph this) (GetTo (m_pGraph this) c))
                         (GetCost (m_pGraph this) c + gCost cur) openList))) as Hkeep.
  { destruct (Nat.eq_dec (pNode cur) (GetNode (m_pGraph this) (GetTo (m_pGraph this) c)))
      as [E|N].
    - apply scanOpen_keeps; [exact Hin|]. rewrite <- E in Hcons. lia.
    - apply scanOpen_keeps_other; assumption. }
  destruct (fst (scanClosed _ _ closedList)); cbn [fst snd].
  { repeat split; assumption. }
  destruct (fst (scanOpen _ _ openList)); cbn [fst snd].
  - split; [exact (Forall_incl _ _ _ Io Hp)|].
    repeat split; try assumption; intros x Hx.
    + apply Hf, Io, Hx.
    + apply Hn, Io, Hx.
    + apply Hpred, Io, Hx.
  - split; [|split; [|split; [|split]]].
    + apply Forall_app. split; [exact (Forall_incl _ _ _ Io Hp)|].
      constructor; [reflexivity | constructor].
    + intros x Hx. apply in_app_or in Hx. destruct Hx as [Hx|[<-|[]]].
      * apply Hf, Io, Hx.
      * cbn [fCost]. unfold recordPriced in Hcur.
        fold (estimate this goal (GetNode (m_pGraph this) (GetTo (m_pGraph this) c))).
        lia.
    + intros x Hx. apply in_app_or in Hx. destruct Hx as [Hx|[<-|[]]].
      * apply Hn, Io, Hx.
      * cbn [pNode]. exact (graph_within _ c Hc).
    + intros x Hx. apply in_app_or in Hx. destruct Hx as [Hx|[<-|[]]].
      * apply Hpred, Io, Hx.
      * unfold predecessorIn. cbn [pConnection].
        rewrite (graph_wellFormed (pNode cur) c Hc).
        rewrite map_app. apply in_or_app. right. left. reflexivity.
    + apply in_or_app. left. exact Hkeep.
Qed.

Lemma orderly_expanding first rest closedList cur0 :
  orderly this pStartNode goal nodes (first :: rest) closedList cur0 ->
  expanding this pStartNode goal nodes (lowestF (first :: rest) first) closedList
    (expansion this goal (lowestF (first :: rest) first)
       (first :: rest, closedList)).
Proof.
  intros ((Do & Dc & Ha) & Hp & Hpc & Hle & Hn & Hpred & Hch & _).
  set (cur := lowestF (first :: rest) first).
  assert (In cur (first :: rest)) as Hcur by apply lowestF_In.
  assert (recordPriced this goal cur) as Hpcur
    by (rewrite Forall_forall in Hp; apply Hp, Hcur).
  apply (expansion_invariant this goal
           (expanding this pStartNode goal nodes cur closedList) cur).
  - intros lists c Hc Hl. apply expanding_body; try assumption.
    intros y Hy. apply Hle; assumption.
  - split; [reflexivity|]. cbn [fst].
    repeat split; try assumption.
    + intros x Hx. apply lowestF_least, Hx.
    + intros x Hx. apply Hn, in_or_app. left. exact Hx.
    + intros x Hx. apply (predecessorIn_incl _ _ _ closedList).
      * apply incl_appl, incl_refl.
      * apply Hpred, Hx.
Qed.

Lemma orderly_turn first rest closedList cur0 openList' :
  orderly this pStartNode goal nodes (first :: rest) closedList cur0 ->
  findErase AreEqual (lowestF (first :: rest) first)
    (fst (expansion this goal (lowestF (first :: rest) first)
            (first :: rest, closedList)))
  = Some openList' ->
  orderly this pStartNode goal nodes openList'
    (snd (expansion this goal (lowestF (first :: rest) first)
            (first :: rest, closedList))
       ++ [lowestF (first :: rest) first])
    (lowestF (first :: rest) first).
Proof.
  intros Hord E.
  pose proof (orderly_expanding first rest closedList cur0 Hord)
    as (Hsnd & Do & Ha & Hp & Hf & Hn & Hpred & Hin).
  destruct Hord as (Hsep & Hp0 & Hpc & Hle & Hn0 & Hpred0 & Hch & _).
  pose proof (turn_separate AreEqual this goal _ _ _ _ Hsep E) as Hsep'.
  set (cur := lowestF (first :: rest) first) in *.
  assert (In cur (first :: rest)) as Hcur by apply lowestF_In.
  assert (recordPriced this goal cur) as Hpcur
    by (rewrite Forall_forall in Hp0; apply Hp0, Hcur).
  pose proof (findErase_incl _ _ _ _ E) as Io.
  rewrite Hsnd in *.
  split; [exact Hsep'|].
  split; [exact (Forall_incl _ _ _ Io Hp)|].
  split; [apply Forall_app; split; [exact Hpc | constructor; [exact Hpcur | constructor]]|].
  split.
  { intros y x Hy Hx. apply in_app_or in Hy. destruct Hy as [Hy|[<-|[]]].
    - specialize (Hle y cur Hy Hcur). specialize (Hf x (Io x Hx)). lia.
    - apply Hf, Io, Hx. }
  split.
  { intros r Hr. apply in_app_or in Hr. destruct Hr as [Hr|Hr].
    - apply Hn, Io, Hr.
    - apply in_app_or in Hr. destruct Hr as [Hr|[<-|[]]].
      + apply Hn0, in_or_app. right. exact Hr.
      + apply Hn0, in_or_app. left. exact Hcur. }
  split; [intros x Hx; apply Hpred, Io, Hx|].
  split; [constructor; [exact Hch | apply Hpred0, Hcur]|].
  apply (predecessorIn_incl _ _ _ closedList);
    [apply incl_appl, incl_refl | apply Hpred0, Hcur].
Qed.

Lemma orderly_start :
  In pStartNode nodes ->
  orderly this pStartNode goal nodes
    [Build_NodeRecord pStartNode None 0 (estimate this goal pStartNode)] []
    (Build_NodeRecord pStartNode None 0 (estimate this goal pStartNode)).
Proof.
  intros Hs. unfold orderly, separate, distinctNodes.
  split; [split; [|split]|].
  - simpl. constructor; [intros [] | constructor].
  - simpl. constructor.
  - intros x y _ [].
  - split; [constructor; [reflexivity | constructor]|].
    split; [constructor|].
    split; [intros y x []|].
    split; [intros r [<-|[]]; exact Hs|].
    split; [intros x [<-|[]]; reflexivity|].
    split; [constructor | reflexivity].
Qed.

Lemma orderly_closed_bounded openList closedList cur0 :
  orderly this pStartNode goal nodes openList closedList cur0 ->
  (length closedList <= length nodes)%nat.
Proof.
  intros ((_ & Dc & _) & _ & _ & _ & Hn & _).
  unfold distinctNodes in Dc.
  rewrite <- (length_map pNode closedList).
  apply NoDup_incl_length; [exact Dc|].
  intros n Hin. apply in_map_iff in Hin. destruct Hin as (y & <- & Hy).
  apply Hn, in_or_app. right. exact Hy.
Qed.

(** Every turn closes a node that was not closed, so the loop is left
    before the fuel exceeds the number of nodes. *)
Lemma orderly_search_returns : forall fuel openList closedList cur0,
  orderly this pStartNode goal nodes openList closedList cur0 ->
  (length nodes < fuel + length closedList)%nat ->
  exists cur closedList',
    value (searchLoop AreEqual fuel goal openList closedList cur0) this
    = Ok (cur, closedList').
Proof.
  induction fuel as [|fuel IH]; intros openList closedList cur0 Hord Hfuel.
  - pose proof (orderly_closed_bounded _ _ _ Hord). lia.
  - destruct openList as [|first rest].
    + exists cur0, closedList. reflexivity.
    + rewrite searchLoop_examines. cbv zeta.
      destruct (Nat.eqb _ goal) eqn:Egoal; [eexists; eexists; reflexivity|].
      fold (expansion this goal (lowestF (first :: rest) first)
              (first :: rest, closedList)).
      pose proof (orderly_expanding first rest closedList cur0 Hord)
        as (Hsnd & _ & _ & _ & _ & _ & _ & Hin).
      pose proof (findErase_found AreEqual AreEqual_refl _ _ Hin) as Hfound.
      destruct (findErase AreEqual _ _) as [openList'|] eqn:E; [|contradiction].
      apply IH.
      * exact (orderly_turn first rest closedList cur0 openList' Hord E).
      * rewrite Hsnd, length_app. simpl. lia.
Qed.

Lemma scanPredecessor_finds cur c : forall closedList,
  pConnection cur = Some c ->
  In (GetNode (m_pGraph this) (GetFrom (m_pGraph this) c)) (map pNode closedList) ->
  exists r,
    value (scanPredecessor cur closedList) this = Ok (Some r)
    /\ In r closedList
    /\ pNode r = GetNode (m_pGraph this) (GetFrom (m_pGraph this) c).
Proof.
  intros closedList Hc.
  induction closedList as [|x rest IH]; intros Hin; [contradiction|].
  unfold value in *. simpl. rewrite Hc. run_monad.
  destruct (Nat.eqb_spec (pNode x)
              (GetNode (m_pGraph this) (GetFrom (m_pGraph this) c))) as [E|N].
  - exists x. split; [reflexivity | split; [left; reflexivity | exact E]].
  - destruct Hin as [Hin|Hin]; [contradiction|].
    destruct (IH Hin) as (r & Hr & Hrin & Hn).
    exists r. split; [exact Hr | split; [right; exact Hrin | exact Hn]].
Qed.

Lemma distinct_same_node : forall l a b,
  distinctNodes l -> In a l -> In b l -> pNode a = pNode b -> a = b.
Proof.
  unfold distinctNodes.
  induction l as [|r l IH]; intros a b D Ha Hb E; [contradiction|].
  simpl in D. inversion D as [|? ? Hr Hl]; subst.
  destruct Ha as [->|Ha], Hb as [->|Hb].
  - reflexivity.
  - exfalso. apply Hr. rewrite E. apply in_map, Hb.
  - exfalso. apply Hr. rewrite <- E. apply in_map, Ha.
  - exact (IH a b Hl Ha Hb E).
Qed.

Lemma chained_within l :
  chained (m_pGraph this) pStartNode l ->
  forall r, In r l -> predecessorIn (m_pGraph this) pStartNode r l.
Proof.
  induction 1 as [|l r0 Hl IH Hr0]; intros r Hr; [contradiction|].
  apply (predecessorIn_incl _ _ _ l); [apply incl_appl, incl_refl|].
  apply in_app_or in Hr. destruct Hr as [Hr|[<-|[]]]; [apply IH, Hr | exact Hr0].
Qed.

(** Each step back lands on a record closed earlier, so the
    reconstruction ends within as many steps as there are closed
    records, and it pushes no node twice. *)
Lemma chained_reconstruct closedList :
  distinctNodes closedList ->
  forall l, chained (m_pGraph this) pStartNode l ->
  incl l closedList ->
  forall fuel cur path,
    predecessorIn (m_pGraph this) pStartNode cur l ->
    (length l < fuel)%nat ->
    exists more,
      value (reconstruct fuel pStartNode cur closedList path) this
      = Ok (path ++ more)
      /\ NoDup more /\ incl more (map pNode l).
Proof.
  intros D. induction 1 as [|l r0 Hl IH Hr0]; intros Hincl fuel cur path Hpred Hfuel.
  - destruct fuel as [|fuel]; [lia|].
    rewrite reconstruct_value_step. unfold predecessorIn in Hpred.
    destruct (pConnection cur); [contradiction|].
    rewrite Hpred, Nat.eqb_refl. exists [].
    rewrite app_nil_r. split; [reflexivity | split; [constructor | apply incl_refl]].
  - assert (incl l closedList) as Hincl0
      by (intros x Hx; apply Hincl, in_or_app; left; exact Hx).
    assert (incl (map pNode l) (map pNode (l ++ [r0]))) as Hmono
      by (rewrite map_app; apply incl_appl, incl_refl).
    destruct fuel as [|fuel]; [lia|].
    rewrite length_app in Hfuel. simpl in Hfuel.
    destruct (Nat.eqb_spec (pNode cur) pStartNode) as [Es|Hs].
    { rewrite reconstruct_value_step, Es, Nat.eqb_refl. exists [].
      rewrite app_nil_r.
      split; [reflexivity | split; [constructor | intros x []]]. }
    pose proof Hpred as Hpred'. unfold predecessorIn in Hpred'.
    destruct (pConnection cur) as [c|] eqn:Ec; [|contradiction].
    destruct (in_dec Nat.eq_dec (GetNode (m_pGraph this) (GetFrom (m_pGraph this) c))
                (map pNode l)) as [Hearlier|Hlast].
    + destruct (IH Hincl0 (S fuel) cur path) as (more & E & Hnd & Hsub).
      * unfold predecessorIn. rewrite Ec. exact Hearlier.
      * lia.
      * exists more. split; [exact E | split; [exact Hnd|]].
        intros x Hx. apply Hmono, Hsub, Hx.
    + assert (pNode r0 = GetNode (m_pGraph this) (GetFrom (m_pGraph this) c)) as En.
      { rewrite map_app in Hpred'. apply in_app_or in Hpred'.
        destruct Hpred' as [K|[K|[]]]; [contradiction | exact K]. }
      assert (In (GetNode (m_pGraph this) (GetFrom (m_pGraph this) c))
                 (map pNode closedList)) as Hin.
      { rewrite <- En. apply in_map, Hincl, in_or_app. right. left. reflexivity. }
      destruct (scanPredecessor_finds cur c closedList Ec Hin) as (r & Er & Hrin & Hn).
      assert (r = r0) as ->.
      { apply (distinct_same_node closedList); try assumption.
        - apply Hincl, in_or_app. right. left. reflexivity.
        - rewrite Hn, En. reflexivity. }
      destruct (IH Hincl0 fuel r0 (path ++ [pNode r0]) Hr0) as (more & E & Hnd & Hsub);
        [lia|].
      exists (pNode r0 :: more).
      rewrite reconstruct_value_step.
      destruct (Nat.eqb_spec (pNode cur) pStartNode) as [K|_]; [contradiction|].
      rewrite Er, E, <- app_assoc.
      split; [reflexivity | split].
      * constructor; [|exact Hnd].
        intro K. apply Hlast. rewrite <- En. apply Hsub, K.
      * intros x [<-|Hx].
        -- rewrite map_app. apply in_or_app. right. left. reflexivity.
        -- apply Hmono, Hsub, Hx.
Qed.

Lemma orderly_exit fuel cur closedList :
  In pStartNode nodes ->
  value (search AreEqual fuel pStartNode goal) this = Ok (cur, closedList) ->
  distinctNodes closedList
  /\ chained (m_pGraph this) pStartNode closedList
  /\ predecessorIn (m_pGraph this) pStartNode cur closedList
  /\ (length closedList <= length nodes)%nat.
Proof.
  intros Hs H.
  destruct (search_invariant AreEqual this goal
              (orderly this pStartNode goal nodes)
              fuel pStartNode cur closedList) as (openList' & cur0' & HInv & Hexit);
    try exact H.
  - intros first rest closed cur0 openList' Hord _ E.
    exact (orderly_turn first rest closed cur0 openList' Hord E).
  - exact (orderly_start Hs).
  - pose proof (orderly_closed_bounded _ _ _ HInv) as Hlen.
    destruct HInv as ((_ & Dc & _) & _ & _ & _ & _ & Hpred & Hch & Hcur0).
    split; [exact Dc | split; [exact Hch|]].
    destruct Hexit as [[_ ->]|[Hin _]].
    + split; assumption.
    + split; [apply Hpred, Hin | exact Hlen].
Qed.

End ConsistentSearch.


Lemma inOrder_body this goal cur closedList c lists :
  consistent this goal ->
  In c (GetNodeConnections (m_pGraph this) (GetIndex (m_pGraph this) (pNode cur))) ->
  recordPriced this goal cur ->
  Forall (recordPriced this goal) closedList ->
  (forall y, In y closedList -> fCost y <= fCost cur) ->
  snd lists = closedList
  /\ Forall (recordPriced this goal) (fst lists)
  /\ (forall x, In x (fst lists) -> fCost cur <= fCost x) ->
  snd (value (processConnection goal cur lists c) this) = closedList
  /\ Forall (recordPriced this goal)
       (fst (value (processConnection goal cur lists c) this))
  /\ (forall x, In x (fst (value (processConnection goal cur lists c) this)) ->
                fCost cur <= fCost x).
Proof.
  intros Hcons Hc Hcur Hclosed Hle (Hsnd & Hp & Hf).
  split; [apply (consistent_body this goal Hcons cur closedList c lists);
          assumption|].
  destruct lists as [openList closed0]. cbn [fst snd] in *. subst closed0.
  split; [apply processConnection_priced; assumption|].
  specialize (Hcons (pNode cur) c Hc). unfold targetOf in Hcons.
  rewrite processConnection_value. cbv zeta.
  pose proof (scanOpen_incl
    (GetNode (m_pGraph this) (GetTo (m_pGraph this) c))
    (GetCost (m_pGraph this) c + gCost cur) openList) as Io.
  destruct (fst (scanClosed _ _ closedList)); cbn [fst]; [exact Hf|].
  destruct (fst (scanOpen _ _ openList)); cbn [fst]; intros x Hx.
  - apply Hf, Io, Hx.
  - apply in_app_or in Hx. destruct Hx as [Hx|[<-|[]]]; [apply Hf, Io, Hx|].
    cbn [fCost]. unfold recordPriced in Hcur.
    fold (estimate this goal (GetNode (m_pGraph this) (GetTo (m_pGraph this) c))).
    lia.
Qed.

Lemma inOrder_turn AreEqual this goal first rest closedList cur0 openList' :
  consistent this goal ->
  inOrder this goal (first :: rest) closedList cur0 ->
  findErase AreEqual (lowestF (first :: rest) first)
    (fst (expansion this goal (lowestF (first :: rest) first)
            (first :: rest, closedList)))
  = Some openList' ->
  inOrder this goal openList'
    (snd (expansion this goal (lowestF (first :: rest) first)
            (first :: rest, closedList))
       ++ [lowestF (first :: rest) first])
    (lowestF (first :: rest) first).
Proof.
  intros Hcons (Hp & Hpc & Hle & Hsort & _) E.
  set (cur := lowestF (first :: rest) first) in *.
  assert (In cur (first :: rest)) as Hcur by apply lowestF_In.
  assert (recordPriced this goal cur) as Hpcur
    by (rewrite Forall_forall in Hp; apply Hp, Hcur).
  destruct (expansion_invariant this goal
              (fun lists => snd lists = closedList
                 /\ Forall (recordPriced this goal) (fst lists)
                 /\ (forall x, In x (fst lists) -> fCost cur <= fCost x))
              cur) with (lists := (first :: rest, closedList))
    as (Hsnd & Hp' & Hf).
  - intros lists c Hc Hl. apply inOrder_body; try assumption.
    intros y Hy. apply Hle; assumption.
  - split; [reflexivity | split; [exact Hp|]].
    intros x Hx. apply lowestF_least, Hx.
  - pose proof (findErase_incl _ _ _ _ E) as Io.
    rewrite Hsnd.
    split; [exact (Forall_incl _ _ _ Io Hp')|].
    split; [apply Forall_app; split;
            [exact Hpc | constructor; [exact Hpcur | constructor]]|].
    split.
    { intros y x Hy Hx. apply in_app_or in Hy. destruct Hy as [Hy|[<-|[]]].
      - specialize (Hle y cur Hy Hcur). specialize (Hf x (Io x Hx)). lia.
      - apply Hf, Io, Hx. }
    split.
    { rewrite map_app. apply StronglySorted_snoc; [exact Hsort|].
      rewrite Forall_forall. intros z Hz. apply in_map_iff in Hz.
      destruct Hz as (y & <- & Hy). apply Hle; assumption. }
    intros y Hy. apply in_app_or in Hy. destruct Hy as [Hy|[<-|[]]].
    + apply Hle; assumption.
    + lia.
Qed.


(** ** The search loop ends, whatever the heuristic *)

Lemma runs_searchLoop AreEqual this goal turns
    openList closedList cur0 openList' closedList' cur0' :
  runs AreEqual this goal turns openList closedList cur0 openList' closedList' cur0' ->
  forall fuel,
    value (searchLoop AreEqual (turns + fuel) goal openList closedList cur0) this
    = value (searchLoop AreEqual fuel goal openList' closedList' cur0') this.
Proof.
  induction 1 as [|turns first rest closedList cur0 openList' openList'' closedList''
                   cur0'' Egoal E Hruns IH]; intros fuel; [reflexivity|].
  change (S turns + fuel)%nat with (S (turns + fuel)).
  rewrite searchLoop_examines. cbv zeta. rewrite Egoal.
  fold (expansion this goal (lowestF (first :: rest) first) (first :: rest, closedList)).
  rewrite E. apply IH.
Qed.

Lemma runs_append AreEqual this goal a b
    o1 c1 r1 o2 c2 r2 o3 c3 r3 :
  runs AreEqual this goal a o1 c1 r1 o2 c2 r2 ->
  runs AreEqual this goal b o2 c2 r2 o3 c3 r3 ->
  runs AreEqual this goal (a + b) o1 c1 r1 o3 c3 r3.
Proof.
  induction 1 as [|turns first rest closedList cur0 openList' openList'' closedList''
                   cur0'' Egoal E Hruns IH]; intros H2; [exact H2|].
  simpl. eapply runs_turn; [exact Egoal | exact E | apply IH, H2].
Qed.

Lemma findErase_keeps AreEqual cur x : forall l l',
  findErase AreEqual cur l = Some l' ->
  In x l -> pNode x <> pNode cur -> In x l'.
Proof.
  induction l as [|r l IH]; simpl; intros l' E Hin Hn; [contradiction|].
  destruct (NodeRecord_eq AreEqual r cur) eqn:Eeq.
  - injection E as <-. destruct Hin as [->|Hin]; [|exact Hin].
    contradiction Hn. exact (NodeRecord_eq_same_node _ _ _ Eeq).
  - destruct (findErase AreEqual cur l) as [l0|]; [|discriminate].
    injection E as <-.
    destruct Hin as [->|Hin]; [left; reflexivity | right; apply (IH l0 eq_refl Hin Hn)].
Qed.

Lemma scanClosed_keeps target g y l :
  In y l -> gCost y <= g -> In y (snd (scanClosed target g l)).
Proof.
  intros Hin Hg.
  induction l as [|r l IH]; simpl; [contradiction|].
  destruct (Nat.eqb (pNode r) target).
  - destruct (Z.gtb_spec (gCost r) g) as [Hr|Hr]; simpl.
    + destruct Hin as [->|Hin]; [lia | exact Hin].
    + destruct Hin as [->|Hin]; [left; reflexivity | right; apply IH, Hin].
  - destruct (scanClosed target g l) as [b l']. simpl in *.
    destruct Hin as [->|Hin]; [left; reflexivity | right; apply IH, Hin].
Qed.

Section Expansion.

Variable this : AStar.
Variable goal : NodePtr.
Variable nodes : list NodePtr.

Hypothesis costs_nonNegative : nonNegativeCosts (m_pGraph this).
Hypothesis graph_within : leadsWithin (m_pGraph this) nodes.

(** What an expansion cannot touch: open and closed records that cost no
    more than the record under expansion; and what it adds costs at
    least as much. *)
Lemma expansion_body cur openList closedList c lists :
  In c (GetNodeConnections (m_pGraph this) (GetIndex (m_pGraph this) (pNode cur))) ->
  ((forall x, In x openList -> gCost x <= gCost cur -> In x (fst lists))
   /\ (forall y, In y closedList -> gCost y <= gCost cur -> In y (snd lists))
   /\ (forall r, In r (fst lists) -> In r openList \/ gCost cur <= gCost r)
   /\ (forall r, In r (fst lists ++ snd lists) -> In (pNode r) nodes)) ->
  (forall x, In x openList -> gCost x <= gCost cur ->
             In x (fst (value (processConnection goal cur lists c) this)))
  /\ (forall y, In y closedList -> gCost y <= gCost cur ->
                In y (snd (value (processConnection goal cur lists c) this)))
  /\ (forall r, In r (fst (value (processConnection goal cur lists c) this)) ->
                In r openList \/ gCost cur <= gCost r)
  /\ (forall r, In r (fst (value (processConnection goal cur lists c) this)
                      ++ snd (value (processConnection goal cur lists c) this)) ->
                In (pNode r) nodes).
Proof.
  intros Hc (Ho & Hcl & Hnew & Hn).
  destruct lists as [open0 closed0]. cbn [fst snd] in *.
  pose proof (costs_nonNegative _ c Hc) as Hcost.
  rewrite processConnection_value. cbv zeta.
  pose proof (scanOpen_incl
    (GetNode (m_pGraph this) (GetTo (m_pGraph this) c))
    (GetCost (m_pGraph this) c + gCost cur) open0) as Io.
  pose proof (scanClosed_incl
    (GetNode (m_pGraph this) (GetTo (m_pGraph this) c))
    (GetCost (m_pGraph this) c + gCost cur) closed0) as Ic.
  assert (forall y, In y closedList -> gCost y <= gCost cur ->
            In y (snd (scanClosed (GetNode (m_pGraph this) (GetTo (m_pGraph this) c))
                         (GetCost (m_pGraph this) c + gCost cur) closed0))) as Kc.
  { intros y Hy Hg. apply scanClosed_keeps; [apply Hcl; assumption | lia]. }
  assert (forall x, In x openList -> gCost x <= gCost cur ->
            In x (snd (scanOpen (GetNode (m_pGraph this) (GetTo (m_pGraph this) c))
                         (GetCost (m_pGraph this) c + gCost cur) open0))) as Ko.
  { intros x Hx Hg. apply scanOpen_keeps; [apply Ho; assumption | lia]. }
  destruct (fst (scanClosed _ _ closed0)); cbn [fst snd].
  { repeat split; try assumption.
    intros r Hr. apply Hn. apply in_app_or in Hr. apply in_or_app.
    destruct Hr as [Hr|Hr]; [left; exact Hr | right; apply Ic, Hr]. }
  destruct (fst (scanOpen _ _ open0)); cbn [fst snd].
  - repeat split; try assumption.
    + intros r Hr. apply Hnew, Io, Hr.
    + intros r Hr. apply Hn. apply in_app_or in Hr. apply in_or_app.
      destruct Hr as [Hr|Hr]; [left; apply Io, Hr | right; apply Ic, Hr].
  - split; [|split; [exact Kc | split]].
    + intros x Hx Hg. apply in_or_app. left. apply Ko; assumption.
    + intros r Hr. apply in_app_or in Hr. destruct Hr as [Hr|[<-|[]]].
      * apply Hnew, Io, Hr.
      * right. cbn [gCost]. lia.
    + intros r Hr. apply in_app_or in Hr. destruct Hr as [Hr|Hr].
      * apply in_app_or in Hr. destruct Hr as [Hr|[<-|[]]].
        -- apply Hn, in_or_app. left. apply Io, Hr.
        -- cbn [pNode]. exact (graph_within _ c Hc).
      * apply Hn, in_or_app. right. apply Ic, Hr.
Qed.

Lemma expansion_effect cur openList closedList :
  (forall r, In r (openList ++ closedList) -> In (pNode r) nodes) ->
  (forall x, In x openList -> gCost x <= gCost cur ->
             In x (fst (expansion this goal cur (openList, closedList))))
  /\ (forall y, In y closedList -> gCost y <= gCost cur ->
                In y (snd (expansion this goal cur (openList, closedList))))
  /\ (forall r, In r (fst (expansion this goal cur (openList, closedList))) ->
                In r openList \/ gCost cur <= gCost r)
  /\ (forall r, In r (fst (expansion this goal cur (openList, closedList))
                      ++ snd (expansion this goal cur (openList, closedList))) ->
                In (pNode r) nodes).
Proof.
  intros Hn.
  apply (expansion_invariant this goal
           (fun lists =>
              (forall x, In x openList -> gCost x <= gCost cur -> In x (fst lists))
              /\ (forall y, In y closedList -> gCost y <= gCost cur -> In y (snd lists))
              /\ (forall r, In r (fst lists) -> In r openList \/ gCost cur <= gCost r)
              /\ (forall r, In r (fst lists ++ snd lists) -> In (pNode r) nodes))
           cur).
  - intros lists c Hc H. exact (expansion_body cur openList closedList c lists Hc H).
  - cbn [fst snd].
    split; [intros x Hx _; exact Hx|].
    split; [intros y Hy _; exact Hy|].
    split; [intros r Hr; left; exact Hr | exact Hn].
Qed.

End Expansion.

Lemma exists_cheapest (P : NodeRecord -> bool) : forall l,
  (exists x, In x l /\ P x = true) ->
  exists m, In m l /\ P m = true
            /\ forall x, In x l -> P x = true -> gCost m <= gCost x.
Proof.
  induction l as [|r l IH]; intros (x & Hx & Px); [contradiction|].
  destruct (existsb P l) eqn:El.
  - apply existsb_exists in El. destruct (IH El) as (m & Hm & Pm & Hmin).
    destruct (P r) eqn:Pr.
    + destruct (Z_le_gt_dec (gCost m) (gCost r)) as [Hle|Hgt].
      * exists m. split; [right; exact Hm | split; [exact Pm|]].
        intros y [<-|Hy] Py; [exact Hle | apply Hmin; assumption].
      * exists r. split; [left; reflexivity | split; [exact Pr|]].
        intros y [<-|Hy] Py; [lia | specialize (Hmin y Hy Py); lia].
    + exists m. split; [right; exact Hm | split; [exact Pm|]].
      intros y [<-|Hy] Py; [rewrite Pr in Py; discriminate | apply Hmin; assumption].
  - assert (forall y, In y l -> P y = false) as Hnone.
    { intros y Hy. destruct (P y) eqn:Py; [|reflexivity].
      assert (existsb P l = true) as T by (apply existsb_exists; exists y; auto).
      rewrite T in El. discriminate. }
    destruct Hx as [->|Hx]; [|rewrite (Hnone x Hx) in Px; discriminate].
    exists x. split; [left; reflexivity | split; [exact Px|]].
    intros y [<-|Hy] Py; [lia | rewrite (Hnone y Hy) in Py; discriminate].
Qed.

Lemma filter_shrinks {A : Type} (f f' : A -> bool) : forall l,
  (forall u, In u (filter f' l) -> In u (filter f l)) ->
  (length (filter f' l) <= length (filter f l))%nat.
Proof.
  induction l as [|a l IH]; intros H; [apply Nat.le_refl|].
  assert (forall u, In u (filter f' l) -> In u (filter f l)) as Hl.
  { intros u Hu. apply filter_In in Hu. destruct Hu as [Hu Hf'].
    assert (In u (filter f' (a :: l))) as K
      by (apply filter_In; split; [right; exact Hu | exact Hf']).
    apply H in K. apply filter_In in K. apply filter_In. split; [exact Hu | apply K]. }
  specialize (IH Hl). simpl.
  destruct (f' a) eqn:Ef', (f a) eqn:Ef; simpl; try lia.
  assert (In a (filter f' (a :: l))) as K
    by (apply filter_In; split; [left; reflexivity | exact Ef']).
  apply H in K. apply filter_In in K. destruct K as [_ K].
  rewrite Ef in K. discriminate.
Qed.

Lemma filter_shrinks_strictly {A : Type} (f f' : A -> bool) : forall l,
  (forall u, In u (filter f' l) -> In u (filter f l)) ->
  (exists u, In u (filter f l) /\ ~ In u (filter f' l)) ->
  (length (filter f' l) < length (filter f l))%nat.
Proof.
  induction l as [|a l IH]; intros H (u & Hu & Hnot); [contradiction|].
  assert (forall v, In v (filter f' l) -> In v (filter f l)) as Hl.
  { intros v Hv. apply filter_In in Hv. destruct Hv as [Hv Hf'].
    assert (In v (filter f' (a :: l))) as K
      by (apply filter_In; split; [right; exact Hv | exact Hf']).
    apply H in K. apply filter_In in K. apply filter_In. split; [exact Hv | apply K]. }
  pose proof (filter_shrinks f f' l Hl) as Hle.
  assert (f a = false -> f' a = false) as Ha.
  { intros Ef. destruct (f' a) eqn:Ef'; [|reflexivity].
    assert (In a (filter f' (a :: l))) as K
      by (apply filter_In; split; [left; reflexivity | exact Ef']).
    apply H in K. apply filter_In in K. destruct K as [_ K].
    rewrite Ef in K. discriminate. }
  simpl in Hu, Hnot |- *.
  destruct (f a) eqn:Ef.
  - destruct (f' a) eqn:Ef'; simpl; [|lia].
    apply -> Nat.succ_lt_mono. apply IH; [exact Hl|].
    destruct Hu as [<-|Hu]; [contradiction Hnot; left; reflexivity|].
    exists u. split; [exact Hu | intro K; apply Hnot; right; exact K].
  - rewrite (Ha eq_refl) in *. apply IH; [exact Hl|].
    exists u. split; assumption.
Qed.

Lemma existsb_eqb_In (u : nat) (l : list nat) :
  existsb (Nat.eqb u) l = true <-> In u l.
Proof.
  rewrite existsb_exists. split.
  - intros (x & Hx & E). apply Nat.eqb_eq in E. subst. exact Hx.
  - intros H. exists u. split; [exact H | apply Nat.eqb_refl].
Qed.

Lemma settledBelow_spec bound closedList u :
  settledBelow bound closedList u = true
  <-> exists y, In y closedList /\ pNode y = u /\ gCost y <= bound.
Proof.
  unfold settledBelow. rewrite existsb_exists. split.
  - intros (y & Hy & E). apply andb_true_iff in E. destruct E as [En Eg].
    exists y. split; [exact Hy|].
    split; [apply Nat.eqb_eq, En | apply Z.leb_le, Eg].
  - intros (y & Hy & En & Eg). exists y. split; [exact Hy|].
    apply andb_true_iff. split; [apply Nat.eqb_eq, En | apply Z.leb_le, Eg].
Qed.

Lemma freeNodes_spec bound held closedList nodes u :
  In u (freeNodes bound held closedList nodes)
  <-> In u nodes /\ ~ In u (map pNode held)
      /\ ~ exists y, In y closedList /\ pNode y = u /\ gCost y <= bound.
Proof.
  unfold freeNodes. rewrite filter_In, andb_true_iff, !negb_true_iff.
  split.
  - intros (Hu & Hh & Hs). split; [exact Hu | split].
    + intro K. apply existsb_eqb_In in K. rewrite K in Hh. discriminate.
    + intro K. apply settledBelow_spec in K. rewrite K in Hs. discriminate.
  - intros (Hu & Hh & Hs). split; [exact Hu | split].
    + destruct (existsb (Nat.eqb u) (map pNode held)) eqn:E; [|reflexivity].
      contradiction Hh. apply existsb_eqb_In, E.
    + destruct (settledBelow bound closedList u) eqn:E; [|reflexivity].
      contradiction Hs. apply settledBelow_spec, E.
Qed.

Lemma poised_weaken nodes bound bound' held held' openList closedList :
  poised nodes bound' held' openList closedList ->
  bound <= bound' ->
  (forall z, In z held -> In z held' /\ gCost z <= bound) ->
  (forall z, In z held' -> In z held \/ bound <= gCost z) ->
  poised nodes bound held openList closedList.
Proof.
  intros (Hsep & Hn & Hheld & Hrest) Hb Hsub Hsup.
  split; [exact Hsep | split; [exact Hn | split]].
  - intros z Hz. destruct (Hsub z Hz) as [Hz' Hg].
    split; [apply Hheld, Hz' | exact Hg].
  - intros r Hr. destruct (Hrest r Hr) as [Hr'|Hg].
    + apply Hsup, Hr'.
    + right. lia.
Qed.

Lemma held_by_node nodes bound held openList closedList r :
  poised nodes bound held openList closedList ->
  In r openList -> In (pNode r) (map pNode held) -> In r held.
Proof.
  intros ((Do & _) & _ & Hheld & _) Hr Hin.
  apply in_map_iff in Hin. destruct Hin as (z & Hz & Hzin).
  destruct (Hheld z Hzin) as [Hzo _].
  rewrite <- (distinct_same_node openList z r Do Hzo Hr Hz). exact Hzin.
Qed.

Lemma not_held_test (u : nat) (l : list nat) :
  ~ In u l -> negb (existsb (Nat.eqb u) l) = true.
Proof.
  intros H. apply negb_true_iff.
  destruct (existsb (Nat.eqb u) l) eqn:E; [|reflexivity].
  contradiction H. apply existsb_eqb_In, E.
Qed.

Section Termination.

Variable AreEqual : Z -> Z -> bool.
Hypothesis AreEqual_refl : forall a, AreEqual a a = true.

Variable this : AStar.
Variable goal : NodePtr.
Variable nodes : list NodePtr.

Hypothesis costs_nonNegative : nonNegativeCosts (m_pGraph this).
Hypothesis graph_within : leadsWithin (m_pGraph this) nodes.

(** One turn on the record [cur]: it succeeds; records that cost no more
    than [cur] stay where they are, [cur] itself is closed, and what is
    new in the open list costs at least as much as [cur]. *)
Lemma turn_effect cur openList closedList :
  separate openList closedList ->
  (forall r, In r (openList ++ closedList) -> In (pNode r) nodes) ->
  In cur openList ->
  exists openList',
    findErase AreEqual cur (fst (expansion this goal cur (openList, closedList)))
    = Some openList'
    /\ separate openList'
         (snd (expansion this goal cur (openList, closedList)) ++ [cur])
    /\ (forall r, In r (openList'
                        ++ snd (expansion this goal cur (openList, closedList))
                        ++ [cur]) -> In (pNode r) nodes)
    /\ (forall x, In x openList -> x <> cur -> gCost x <= gCost cur ->
                  In x openList')
    /\ (forall y, In y closedList -> gCost y <= gCost cur ->
                  In y (snd (expansion this goal cur (openList, closedList))
                          ++ [cur]))
    /\ (forall r, In r openList' ->
                  (In r openList /\ r <> cur) \/ gCost cur <= gCost r).
Proof.
  intros Hsep Hn Hcur.
  destruct (expansion_effect this goal nodes costs_nonNegative graph_within
              cur openList closedList Hn) as (Ho & Hc & Hnew & Hn').
  pose proof (expansion_separate this goal cur (openList, closedList) Hsep)
    as (Do & _).
  assert (In cur (fst (expansion this goal cur (openList, closedList)))) as Hin
    by (apply Ho; [exact Hcur | lia]).
  pose proof (findErase_found AreEqual AreEqual_refl _ _ Hin) as Hfound.
  destruct (findErase AreEqual cur _) as [openList'|] eqn:E; [|contradiction].
  pose proof (findErase_incl _ _ _ _ E) as Io.
  pose proof (findErase_node_gone _ _ _ _ E Do) as Hgone.
  exists openList'. split; [reflexivity|].
  split; [exact (turn_separate _ _ _ _ _ _ _ Hsep E)|].
  split.
  { intros r Hr. apply in_app_or in Hr. destruct Hr as [Hr|Hr].
    - apply Hn', in_or_app. left. apply Io, Hr.
    - apply in_app_or in Hr. destruct Hr as [Hr|[<-|[]]].
      + apply Hn', in_or_app. right. exact Hr.
      + apply Hn, in_or_app. left. exact Hcur. }
  split.
  { intros x Hx Hne Hg.
    apply (findErase_keeps _ _ _ _ _ E); [apply Ho; assumption|].
    intro En. apply Hne.
    destruct Hsep as (Do0 & _).
    exact (distinct_same_node openList x cur Do0 Hx Hcur En). }
  split.
  { intros y Hy Hg. apply in_or_app. left. apply Hc; assumption. }
  intros r Hr.
  destruct (Hnew r (Io r Hr)) as [Hold|Hg]; [|right; exact Hg].
  left. split; [exact Hold|].
  intros ->. apply Hgone. apply in_map, Hr.
Qed.

Lemma selected_is_free bound held first rest closedList :
  poised nodes bound held (first :: rest) closedList ->
  ~ In (pNode (lowestF (first :: rest) first)) (map pNode held) ->
  In (pNode (lowestF (first :: rest) first))
     (freeNodes bound held closedList nodes).
Proof.
  intros ((_ & _ & Ha) & Hn & _) Hout.
  pose proof (lowestF_In first rest) as Hsel.
  apply freeNodes_spec. split; [|split; [exact Hout|]].
  - apply Hn, in_or_app. left. exact Hsel.
  - intros (y & Hy & En & _). exact (Ha _ y Hsel Hy (eq_sym En)).
Qed.

(** From a poised state the loop stops, or selects a held record, within
    fewer than [2 ^ k] turns when at most [k] nodes are free. *)
Lemma poised_runs : forall k bound held openList closedList cur0,
  poised nodes bound held openList closedList ->
  (length (freeNodes bound held closedList nodes) <= k)%nat ->
  exists turns openList' closedList' cur0',
    (turns < 2 ^ k)%nat
    /\ runs AreEqual this goal turns openList closedList cur0
         openList' closedList' cur0'
    /\ poised nodes bound held openList' closedList'
    /\ (forall y, In y closedList -> gCost y <= bound -> In y closedList')
    /\ stops goal held openList'.
Proof.
  assert (forall k bound held openList closedList cur0,
            poised nodes bound held openList closedList ->
            stops goal held openList ->
            exists turns openList' closedList' cur0',
              (turns < 2 ^ k)%nat
              /\ runs AreEqual this goal turns openList closedList cur0
                   openList' closedList' cur0'
              /\ poised nodes bound held openList' closedList'
              /\ (forall y, In y closedList -> gCost y <= bound -> In y closedList')
              /\ stops goal held openList') as Hstay.
  { intros k bound held openList closedList cur0 Hp Hs.
    exists 0%nat, openList, closedList, cur0.
    split; [apply Nat.neq_0_lt_0, Nat.pow_nonzero; discriminate|].
    split; [constructor | split; [exact Hp | split; [|exact Hs]]].
    intros y Hy _. exact Hy. }
  induction k as [|k IH]; intros bound held openList closedList cur0 Hp Hfree.
  - destruct openList as [|first rest]; [apply Hstay; [exact Hp | exact I]|].
    destruct (in_dec Nat.eq_dec (pNode (lowestF (first :: rest) first))
                (map pNode held)) as [Hheld|Hout].
    + apply Hstay; [exact Hp|]. right.
      exact (held_by_node _ _ _ _ _ _ Hp (lowestF_In first rest) Hheld).
    + pose proof (selected_is_free bound held first rest closedList Hp Hout) as K.
      destruct (freeNodes bound held closedList nodes); [contradiction | simpl in Hfree; lia].
  - destruct openList as [|first rest]; [apply Hstay; [exact Hp | exact I]|].
    destruct (in_dec Nat.eq_dec (pNode (lowestF (first :: rest) first))
                (map pNode held)) as [Hheld|Hout].
    { apply Hstay; [exact Hp|]. right.
      exact (held_by_node _ _ _ _ _ _ Hp (lowestF_In first rest) Hheld). }
    (* the cheapest open record that is not held *)
    destruct (exists_cheapest
                (fun r => negb (existsb (Nat.eqb (pNode r)) (map pNode held)))
                (first :: rest)) as (M & HM & PM & Hmin).
    { exists (lowestF (first :: rest) first). split; [apply lowestF_In|].
      apply not_held_test, Hout. }
    assert (~ In (pNode M) (map pNode held)) as HMout.
    { intro K. apply existsb_eqb_In in K. rewrite K in PM. discriminate. }
    pose proof Hp as (Hsep & Hn & Hheld & Hrest).
    assert (bound <= gCost M) as Hbound.
    { destruct (Hrest M HM) as [K|K]; [|exact K].
      contradiction HMout. apply in_map, K. }
    assert (poised nodes (gCost M) (M :: held) (first :: rest) closedList) as Hp1.
    { split; [exact Hsep | split; [exact Hn | split]].
      - intros z [<-|Hz]; [split; [exact HM | lia]|].
        destruct (Hheld z Hz) as [Hzo Hzg]. split; [exact Hzo | lia].
      - intros r Hr.
        destruct (in_dec Nat.eq_dec (pNode r) (map pNode held)) as [Hin|Hnin].
        + left. right. exact (held_by_node _ _ _ _ _ _ Hp Hr Hin).
        + right. apply Hmin; [exact Hr | apply not_held_test, Hnin]. }
    assert (length (freeNodes (gCost M) (M :: held) closedList nodes) <= k)%nat
      as Hfree1.
    { apply Nat.lt_succ_r.
      apply Nat.lt_le_trans with (2 := Hfree).
      apply filter_shrinks_strictly.
      - intros u Hu. apply freeNodes_spec in Hu. apply freeNodes_spec.
        destruct Hu as (Hu & Hh & Hs). split; [exact Hu | split].
        + intro K. apply Hh. right. exact K.
        + intros (y & Hy & En & Eg). apply Hs. exists y. repeat split; auto. lia.
      - exists (pNode M). split.
        + apply freeNodes_spec. split; [|split; [exact HMout|]].
          * apply Hn, in_or_app. left. exact HM.
          * destruct Hsep as (_ & _ & Ha).
            intros (y & Hy & En & _). exact (Ha M y HM Hy (eq_sym En)).
        + intro K. apply freeNodes_spec in K. destruct K as (_ & K & _).
          apply K. left. reflexivity. }
    destruct (IH (gCost M) (M :: held) (first :: rest) closedList cur0 Hp1 Hfree1)
      as (turns1 & open1 & closed1 & cur1 & Ht1 & Hruns1 & Hpoised1 & Hkeep1 & Hstops1).
    assert (forall o c, poised nodes (gCost M) (M :: held) o c ->
                        poised nodes bound held o c) as Hdown.
    { intros o c Hpo. apply (poised_weaken nodes bound (gCost M) held (M :: held) o c Hpo Hbound).
      - intros z Hz. split; [right; exact Hz | apply Hheld, Hz].
      - intros z [<-|Hz]; [right; exact Hbound | left; exact Hz]. }
    assert ((exists turns openList' closedList' cur0',
              (turns < 2 ^ S k)%nat
              /\ runs AreEqual this goal turns (first :: rest) closedList cur0
                   openList' closedList' cur0'
              /\ poised nodes bound held openList' closedList'
              /\ (forall y, In y closedList -> gCost y <= bound -> In y closedList')
              /\ stops goal held openList')
            \/ (exists f1 r1, open1 = f1 :: r1 /\ lowestF (f1 :: r1) f1 = M
                              /\ pNode M <> goal)) as Hcases.
    { destruct open1 as [|f1 r1].
      - left. exists turns1, [], closed1, cur1.
        split; [simpl; lia | split; [exact Hruns1 | split; [apply Hdown, Hpoised1|]]].
        split; [intros y Hy Hg; apply Hkeep1; [exact Hy | lia] | exact I].
      - destruct (Nat.eq_dec (pNode (lowestF (f1 :: r1) f1)) goal) as [Eg|Ng].
        + left. exists turns1, (f1 :: r1), closed1, cur1.
          split; [simpl; lia | split; [exact Hruns1 | split; [apply Hdown, Hpoised1|]]].
          split; [intros y Hy Hg; apply Hkeep1; [exact Hy | lia] | left; exact Eg].
        + destruct Hstops1 as [Eg|[EM|Hin]]; [contradiction| |].
          * right. exists f1, r1.
            split; [reflexivity | split; [symmetry; exact EM|]].
            rewrite EM. exact Ng.
          * left. exists turns1, (f1 :: r1), closed1, cur1.
            split; [simpl; lia | split; [exact Hruns1 | split; [apply Hdown, Hpoised1|]]].
            split; [intros y Hy Hg; apply Hkeep1; [exact Hy | lia] | right; exact Hin]. }
    destruct Hcases as [Hdone|(f1 & r1 & -> & Esel & Ngoal)]; [exact Hdone|].
    (* the turn that expands [M] *)
    pose proof Hpoised1 as (Hsep1 & Hn1 & Hheld1 & Hrest1).
    assert (In M (f1 :: r1)) as HM1 by (rewrite <- Esel; apply lowestF_In).
    destruct (turn_effect M (f1 :: r1) closed1 Hsep1 Hn1 HM1)
      as (open2 & E2 & Hsep2 & Hn2 & Hstay2 & Hclosed2 & Hnew2).
    set (closed2 := snd (expansion this goal M (f1 :: r1, closed1)) ++ [M]) in *.
    assert (poised nodes (gCost M) held open2 closed2) as Hp2.
    { split; [exact Hsep2 | split; [exact Hn2 | split]].
      - intros z Hz. destruct (Hheld z Hz) as [_ Hzg].
        destruct (Hheld1 z (or_intror Hz)) as [Hzo _].
        split; [|lia]. apply Hstay2; [exact Hzo | | lia].
        intros ->. apply HMout. apply in_map, Hz.
      - intros r Hr. destruct (Hnew2 r Hr) as [[Hold Hne]|Hg]; [|right; exact Hg].
        destruct (Hrest1 r Hold) as [[EM|Hin]|Hg].
        + contradiction Hne. symmetry. exact EM.
        + left. exact Hin.
        + right. exact Hg. }
    assert (forall y, In y closedList -> gCost y <= gCost M -> In y closed2) as Hkeep2.
    { intros y Hy Hg. apply Hclosed2; [apply Hkeep1; assumption | exact Hg]. }
    assert (length (freeNodes (gCost M) held closed2 nodes) <= k)%nat as Hfree2.
    { apply Nat.le_trans with (2 := Hfree1).
      apply filter_shrinks.
      intros u Hu. apply freeNodes_spec in Hu. apply freeNodes_spec.
      destruct Hu as (Hu & Hh & Hs). split; [exact Hu | split].
      - intros [EM|K]; [|exact (Hh K)].
        apply Hs. exists M. split; [|split; [exact EM | lia]].
        unfold closed2. apply in_or_app. right. left. reflexivity.
      - intros (y & Hy & En & Eg). apply Hs. exists y.
        split; [apply Hkeep2; assumption | split; assumption]. }
    destruct (IH (gCost M) held open2 closed2 M Hp2 Hfree2)
      as (turns3 & open3 & closed3 & cur3 & Ht3 & Hruns3 & Hpoised3 & Hkeep3 & Hstops3).
    exists (turns1 + S turns3)%nat, open3, closed3, cur3.
    split; [simpl; lia|].
    split.
    { apply (runs_append _ _ _ _ _ _ _ _ _ _ _ _ _ _ Hruns1).
      rewrite <- Esel in E2, Hruns3. unfold closed2 in Hruns3. rewrite <- Esel in Hruns3.
      eapply runs_turn; [apply Nat.eqb_neq; rewrite Esel; exact Ngoal | exact E2 | exact Hruns3]. }
    split.
    { apply (poised_weaken nodes bound (gCost M) held held open3 closed3 Hpoised3 Hbound).
      - intros z Hz. split; [exact Hz | apply Hheld, Hz].
      - intros z Hz. left. exact Hz. }
    split; [|exact Hstops3].
    intros y Hy Hg. apply Hkeep3; [apply Hkeep2; [exact Hy | lia] | lia].
Qed.

End Termination.

Lemma poised_start this goal nodes pStartNode :
  In pStartNode nodes ->
  poised nodes 0 []
    [Build_NodeRecord pStartNode None 0 (estimate this goal pStartNode)] [].
Proof.
  intros Hs. split; [split; [|split]|split; [|split]].
  - unfold distinctNodes. simpl. constructor; [intros [] | constructor].
  - unfold distinctNodes. simpl. constructor.
  - intros x y _ [].
  - intros r [<-|[]]. exact Hs.
  - intros z [].
  - intros r [<-|[]]. right. simpl. lia.
Qed.

(** X11: on a graph without negative costs whose connections lead to
    finitely many nodes, the search loop ends whatever the heuristic
    function is: among [n] nodes it is left within [2 ^ n] turns. *)
Theorem search_loop_ends (AreEqual : Z -> Z -> bool) (fuel : nat)
    (pStartNode pGoalNode : NodePtr) (this : AStar) (nodes : list NodePtr) :
  (forall a, AreEqual a a = true) ->
  nonNegativeCosts (m_pGraph this) ->
  leadsWithin (m_pGraph this) nodes ->
  In pStartNode nodes ->
  (2 ^ length nodes <= fuel)%nat ->
  exists cur closedList,
    value (search AreEqual fuel pStartNode pGoalNode) this = Ok (cur, closedList).
Proof.
  intros Hrefl Hcost Hwithin Hs Hfuel.
  destruct (poised_runs AreEqual Hrefl this pGoalNode nodes Hcost Hwithin
              (length nodes) 0 []
              [Build_NodeRecord pStartNode None 0 (estimate this pGoalNode pStartNode)]
              [] (Build_NodeRecord pStartNode None 0 (estimate this pGoalNode pStartNode)))
    as (turns & openList' & closedList' & cur0' & Hturns & Hruns & _ & _ & Hstops).
  - apply poised_start, Hs.
  - unfold freeNodes. apply filter_length_le.
  - rewrite search_value.
    replace fuel with (turns + S (fuel - turns - 1))%nat by lia.
    rewrite (runs_searchLoop _ _ _ _ _ _ _ _ _ _ Hruns).
    destruct openList' as [|first rest]; [eexists; eexists; reflexivity|].
    rewrite searchLoop_examines. cbv zeta.
    destruct Hstops as [Eg|[]]. rewrite Eg, Nat.eqb_refl.
    eexists. eexists. reflexivity.
Qed.

(** ** The fixtures, again *)

Lemma graphOf_wellFormed positions connections :
  wellFormed (graphOf positions connections).
Proof.
  intros p c Hc. simpl in *.
  apply filter_In in Hc. destruct Hc as [_ Hc].
  apply Z.eqb_eq in Hc. rewrite Hc. apply Nat2Z.id.
Qed.

Lemma graphOf_leadsWithin positions connections n :
  Forall (fun c => 0 <= m_To c < Z.of_nat n) connections ->
  leadsWithin (graphOf positions connections) (seq 0 n).
Proof.
  intros H idx c Hc. unfold targetOf. simpl in *.
  apply filter_In in Hc. destruct Hc as [Hc _]. apply in_seq in Hc.
  rewrite Forall_forall in H.
  specialize (H (nth c connections noConnection)).
  assert (In (nth c connections noConnection) connections) as K
    by (apply nth_In; lia).
  specialize (H K). apply in_seq. lia.
Qed.

Lemma zeroHeuristic_consistent this goal :
  m_HeuristicFunction this = zeroHeuristic ->
  nonNegativeCosts (m_pGraph this) ->
  consistent this goal.
Proof.
  intros Hh Hcost p c Hc.
  unfold estimate, value, GetHeuristicCost. run_monad. rewrite Hh.
  unfold zeroHeuristic. specialize (Hcost _ c Hc). lia.
Qed.

Lemma scenario_consistent : consistent scenario 3%nat.
Proof.
  apply zeroHeuristic_consistent; [reflexivity | exact scenario_nonNegative].
Qed.

Lemma scenario_leadsWithin : leadsWithin (m_pGraph scenario) (seq 0 4).
Proof. apply graphOf_leadsWithin. repeat constructor; simpl; lia. Qed.

Lemma detour_leadsWithin : leadsWithin (m_pGraph detour) (seq 0 4).
Proof. apply graphOf_leadsWithin. repeat constructor; simpl; lia. Qed.

Lemma search_loop_ends_witness :
  exists cur closedList,
    value (search Z.eqb 16 0%nat 3%nat) detour = Ok (cur, closedList).
Proof.
  apply (search_loop_ends Z.eqb 16 0%nat 3%nat detour (seq 0 4)).
  - intro a. apply Z.eqb_refl.
  - exact detour_nonNegative.
  - exact detour_leadsWithin.
  - simpl. left. reflexivity.
  - simpl. lia.
Defined.






(** ** The two operators and the steps that use them *)

(** X13: [operator<] compares the [fCost] only; it is a strict weak
    order, and no open record is less than the record the search loop
    selects. *)
Theorem NodeRecord_lt_orders_selection (first : NodeRecord) (rest : list NodeRecord) :
  (forall x, In x (first :: rest) ->
             NodeRecord_lt x (lowestF (first :: rest) first) = false)
  /\ (forall a, NodeRecord_lt a a = false)
  /\ (forall a b c, NodeRecord_lt a b = true -> NodeRecord_lt b c = true ->
                    NodeRecord_lt a c = true)
  /\ (forall a b c,
        NodeRecord_lt a b = false /\ NodeRecord_lt b a = false ->
        NodeRecord_lt b c = false /\ NodeRecord_lt c b = false ->
        NodeRecord_lt a c = false /\ NodeRecord_lt c a = false).
Proof.
  unfold NodeRecord_lt. split; [|split; [|split]].
  - intros x Hx. apply Z.ltb_ge. apply lowestF_least, Hx.
  - intro a. apply Z.ltb_irrefl.
  - intros a b c Hab Hbc. apply Z.ltb_lt in Hab, Hbc. apply Z.ltb_lt. lia.
  - intros a b c [Hab Hba] [Hbc Hcb].
    apply Z.ltb_ge in Hab, Hba, Hbc, Hcb. split; apply Z.ltb_ge; lia.
Qed.

(** X14: with a reflexive [AreEqual], on an open list without two records
    of one node, [std::find] and [erase] remove the current record and
    nothing else, whatever the tolerance: the other records stay, in
    their number. *)
Theorem findErase_erases_current (AreEqual : Z -> Z -> bool)
    (cur : NodeRecord) (openList : list NodeRecord) :
  (forall a, AreEqual a a = true) ->
  NoDup (map pNode openList) ->
  In cur openList ->
  exists openList',
    findErase AreEqual cur openList = Some openList'
    /\ (forall x, In x openList' <-> In x openList /\ x <> cur)
    /\ length openList = S (length openList').
Proof.
  intros Hrefl.
  induction openList as [|r l IH]; intros D Hin; [contradiction|].
  simpl in D. inversion D as [|? ? Hr Hl]; subst. simpl.
  destruct Hin as [->|Hin].
  - rewrite (NodeRecord_eq_refl AreEqual Hrefl). exists l.
    split; [reflexivity | split; [|reflexivity]].
    intros x. split.
    + intros Hx. split; [right; exact Hx|].
      intros ->. apply Hr. apply in_map, Hx.
    + intros [[->|Hx] Hne]; [contradiction Hne; reflexivity | exact Hx].
  - assert (pNode r <> pNode cur) as Hn.
    { intro E. apply Hr. rewrite E. apply in_map, Hin. }
    assert (NodeRecord_eq AreEqual r cur = false) as Eeq.
    { destruct (NodeRecord_eq AreEqual r cur) eqn:E; [|reflexivity].
      contradiction Hn. exact (NodeRecord_eq_same_node _ _ _ E). }
    rewrite Eeq.
    destruct (IH Hl Hin) as (l' & -> & Hiff & Hlen).
    exists (r :: l'). split; [reflexivity | split; [|simpl; lia]].
    intros x. simpl. rewrite Hiff. split.
    + intros [->|[Hx Hne]].
      * split; [left; reflexivity|]. intros ->. apply Hn. reflexivity.
      * split; [right; exact Hx | exact Hne].
    + intros [[->|Hx] Hne]; [left; reflexivity | right; split; assumption].
Qed.

Lemma findErase_erases_current_witness :
  exists openList',
    findErase Z.eqb (Build_NodeRecord 1%nat (Some 0%nat) 1 1)
      [Build_NodeRecord 1%nat (Some 0%nat) 1 1;
       Build_NodeRecord 3%nat (Some 3%nat) 6 6]
    = Some openList'
    /\ (forall x, In x openList'
                  <-> In x [Build_NodeRecord 1%nat (Some 0%nat) 1 1;
                            Build_NodeRecord 3%nat (Some 3%nat) 6 6]
                      /\ x <> Build_NodeRecord 1%nat (Some 0%nat) 1 1)
    /\ length [Build_NodeRecord 1%nat (Some 0%nat) 1 1;
               Build_NodeRecord 3%nat (Some 3%nat) 6 6]
       = S (length openList').
Proof.
  apply findErase_erases_current.
  - intro a. apply Z.eqb_refl.
  - simpl. repeat constructor; simpl; intuition discriminate.
  - left. reflexivity.
Defined.

Lemma scanOpen_flag_present target g l :
  (exists x, In x l /\ pNode x = target) ->
  fst (scanOpen target g l) = true.
Proof.
  intros (x & Hx & En). rewrite scanOpen_flag. apply existsb_exists.
  exists x. split; [exact Hx | rewrite En; apply Nat.eqb_refl].
Qed.

Lemma scanOpen_unchanged target g l :
  (forall x, In x l -> pNode x = target -> gCost x <= g) ->
  snd (scanOpen target g l) = l.
Proof.
  induction l as [|r l IH]; intros H; simpl; [reflexivity|].
  destruct (Nat.eqb_spec (pNode r) target) as [Hr|_].
  - simpl. destruct (Z.gtb_spec (gCost r) g) as [Hg|_]; [|reflexivity].
    specialize (H r (or_introl eq_refl) Hr). lia.
  - assert (snd (scanOpen target g l) = l) as E
      by (apply IH; intros y Hy; apply H; right; exact Hy).
    destruct (scanOpen target g l) as [b l']. simpl in *. rewrite E. reflexivity.
Qed.

(** X15: the loop body on a connection whose target is not stale. A
    target with no record in either list gets a new record at the end of
    the open list, priced with the candidate cost and the estimate to the
    goal; a target whose open records, or whose closed records, cost no
    more than the candidate leaves both lists as they are. *)
Theorem processConnection_cases (goal : NodePtr) (cur : NodeRecord)
    (openList closedList : list NodeRecord) (c : ConnectionPtr) (this : AStar) :
  ((forall y, In y closedList -> pNode y <> targetOf (m_pGraph this) c) ->
   (forall x, In x openList -> pNode x <> targetOf (m_pGraph this) c) ->
   value (processConnection goal cur (openList, closedList) c) this
   = (openList
        ++ [Build_NodeRecord (targetOf (m_pGraph this) c) (Some c)
              (candidateCost (m_pGraph this) cur c)
              (candidateCost (m_pGraph this) cur c
               + value (GetHeuristicCost (targetOf (m_pGraph this) c) goal) this)],
      closedList))
  /\ ((forall y, In y closedList -> pNode y <> targetOf (m_pGraph this) c) ->
      (exists x, In x openList /\ pNode x = targetOf (m_pGraph this) c) ->
      (forall x, In x openList -> pNode x = targetOf (m_pGraph this) c ->
                 gCost x <= candidateCost (m_pGraph this) cur c) ->
      value (processConnection goal cur (openList, closedList) c) this
      = (openList, closedList))
  /\ ((exists y, In y closedList /\ pNode y = targetOf (m_pGraph this) c) ->
      (forall y, In y closedList -> pNode y = targetOf (m_pGraph this) c ->
                 gCost y <= candidateCost (m_pGraph this) cur c) ->
      value (processConnection goal cur (openList, closedList) c) this
      = (openList, closedList)).
Proof.
  rewrite processConnection_value. cbv zeta.
  fold (targetOf (m_pGraph this) c) (candidateCost (m_pGraph this) cur c).
  split; [|split].
  - intros Hc Ho.
    rewrite (scanClosed_absent _ _ closedList Hc), (scanOpen_absent _ _ openList Ho).
    reflexivity.
  - intros Hc Hex Ho.
    rewrite (scanClosed_absent _ _ closedList Hc). cbn [fst snd].
    rewrite (scanOpen_flag_present _ _ openList Hex).
    rewrite (scanOpen_unchanged _ _ openList Ho). reflexivity.
  - intros (y & Hy & En) Hc.
    assert (fst (scanClosed (targetOf (m_pGraph this) c)
                   (candidateCost (m_pGraph this) cur c) closedList) = true) as E.
    { rewrite scanClosed_flag. apply existsb_exists. exists y.
      split; [exact Hy | rewrite En; apply Nat.eqb_refl]. }
    rewrite E, (scanClosed_unchanged _ _ closedList Hc). reflexivity.
Qed.

Lemma processConnection_cases_witness :
  value (processConnection 3%nat (Build_NodeRecord 0%nat None 0 0)
           ([Build_NodeRecord 0%nat None 0 0], []) 0%nat) scenario
  = ([Build_NodeRecord 0%nat None 0 0]
       ++ [Build_NodeRecord (targetOf (m_pGraph scenario) 0%nat) (Some 0%nat)
             (candidateCost (m_pGraph scenario) (Build_NodeRecord 0%nat None 0 0) 0%nat)
             (candidateCost (m_pGraph scenario) (Build_NodeRecord 0%nat None 0 0) 0%nat
              + value (GetHeuristicCost (targetOf (m_pGraph scenario) 0%nat) 3%nat)
                  scenario)],
     [])
  /\ value (processConnection 3%nat (Build_NodeRecord 0%nat None 0 0)
              ([Build_NodeRecord 0%nat None 0 0;
                Build_NodeRecord 2%nat (Some 2%nat) 2 2], []) 1%nat) scenario
     = ([Build_NodeRecord 0%nat None 0 0;
         Build_NodeRecord 2%nat (Some 2%nat) 2 2], [])
  /\ value (processConnection 3%nat (Build_NodeRecord 0%nat None 0 0)
              ([Build_NodeRecord 0%nat None 0 0],
               [Build_NodeRecord 2%nat (Some 2%nat) 2 2]) 1%nat) scenario
     = ([Build_NodeRecord 0%nat None 0 0],
        [Build_NodeRecord 2%nat (Some 2%nat) 2 2]).
Proof.
  split; [|split].
  - apply (proj1 (processConnection_cases 3%nat (Build_NodeRecord 0%nat None 0 0)
                    [Build_NodeRecord 0%nat None 0 0] [] 0%nat scenario)).
    + intros y [].
    + intros x [<-|[]]. vm_compute. discriminate.
  - apply (proj1 (proj2 (processConnection_cases 3%nat (Build_NodeRecord 0%nat None 0 0)
                    [Build_NodeRecord 0%nat None 0 0;
                     Build_NodeRecord 2%nat (Some 2%nat) 2 2] [] 1%nat scenario))).
    + intros y [].
    + eexists. split; [right; left; reflexivity | vm_compute; reflexivity].
    + intros x [<-|[<-|[]]]; vm_compute; intro; discriminate.
  - apply (proj2 (proj2 (processConnection_cases 3%nat (Build_NodeRecord 0%nat None 0 0)
                    [Build_NodeRecord 0%nat None 0 0]
                    [Build_NodeRecord 2%nat (Some 2%nat) 2 2] 1%nat scenario))).
    + eexists. split; [left; reflexivity | vm_compute; reflexivity].
    + intros y [<-|[]]. vm_compute. intro. discriminate.
Defined.

(** ** The start record *)

Lemma scanClosed_head target g x l :
  gCost x <= g ->
  exists rest, snd (scanClosed target g (x :: l)) = x :: rest.
Proof.
  intros Hg. simpl.
  destruct (Nat.eqb (pNode x) target).
  - destruct (Z.gtb_spec (gCost x) g) as [K|_]; [lia|].
    eexists. reflexivity.
  - destruct (scanClosed target g l) as [b l']. eexists. reflexivity.
Qed.

Lemma start_body this goal cur startRecord (untouched : Prop) c lists :
  0 <= GetCost (m_pGraph this) c ->
  0 <= gCost cur ->
  gCost startRecord = 0 ->
  ((forall r, In r (fst lists) -> 0 <= gCost r)
   /\ ((untouched /\ snd lists = [])
       \/ exists rest, snd lists = startRecord :: rest)) ->
  (forall r, In r (fst (value (processConnection goal cur lists c) this)) ->
             0 <= gCost r)
  /\ ((untouched /\ snd (value (processConnection goal cur lists c) this) = [])
      \/ exists rest,
           snd (value (processConnection goal cur lists c) this)
           = startRecord :: rest).
Proof.
  intros Hc Hcur Hs (Ho & Hcl). destruct lists as [openList closedList].
  cbn [fst snd] in *. rewrite processConnection_value. cbv zeta.
  pose proof (scanOpen_incl
    (GetNode (m_pGraph this) (GetTo (m_pGraph this) c))
    (GetCost (m_pGraph this) c + gCost cur) openList) as Io.
  assert ((untouched
           /\ snd (scanClosed (GetNode (m_pGraph this) (GetTo (m_pGraph this) c))
                     (GetCost (m_pGraph this) c + gCost cur) closedList) = [])
          \/ exists rest,
               snd (scanClosed (GetNode (m_pGraph this) (GetTo (m_pGraph this) c))
                      (GetCost (m_pGraph this) c + gCost cur) closedList)
               = startRecord :: rest) as Kc.
  { destruct Hcl as [[Hu ->]|(rest & ->)];
      [left; split; [exact Hu | reflexivity] | right].
    apply scanClosed_head. lia. }
  destruct (fst (scanClosed _ _ closedList)); cbn [fst snd]; [split; assumption|].
  destruct (fst (scanOpen _ _ openList)); cbn [fst snd]; (split; [|exact Kc]).
  - intros r Hr. apply Ho, Io, Hr.
  - intros r Hr. apply in_app_or in Hr. destruct Hr as [Hr|[<-|[]]].
    + apply Ho, Io, Hr.
    + cbn [gCost]. lia.
Qed.

(** X16: on a graph without negative costs the start record, once
    closed, is never erased: when start and goal differ, the closed list
    the search leaves behind begins with the start record. *)
Theorem start_record_stays_closed (AreEqual : Z -> Z -> bool) (fuel : nat)
    (pStartNode pGoalNode : NodePtr) (this : AStar)
    (cur : NodeRecord) (closedList : list NodeRecord) :
  nonNegativeCosts (m_pGraph this) ->
  pStartNode <> pGoalNode ->
  value (search AreEqual fuel pStartNode pGoalNode) this = Ok (cur, closedList) ->
  exists rest,
    closedList
    = Build_NodeRecord pStartNode None 0
        (value (GetHeuristicCost pStartNode pGoalNode) this) :: rest.
Proof.
  intros Hcost Hne H.
  set (startRecord := Build_NodeRecord pStartNode None 0
                        (estimate this pGoalNode pStartNode)).
  destruct (search_invariant AreEqual this pGoalNode
              (fun openList closedList cur0 =>
                 (forall r, In r openList -> 0 <= gCost r)
                 /\ ((closedList = [] /\ openList = [startRecord])
                     \/ exists rest, closedList = startRecord :: rest))
              fuel pStartNode cur closedList) as (openList' & cur0' & HInv & Hexit);
    try exact H.
  - intros first rest closed cur0 openList' (Ho & Hcl) _ E.
    set (sel := lowestF (first :: rest) first) in *.
    assert (0 <= gCost sel) as Hsel by (apply Ho, lowestF_In).
    destruct (expansion_invariant this pGoalNode
                (fun lists =>
                   (forall r, In r (fst lists) -> 0 <= gCost r)
                   /\ ((first :: rest = [startRecord] /\ snd lists = [])
                       \/ exists rest, snd lists = startRecord :: rest))
                sel) with (lists := (first :: rest, closed)) as (Ho' & Hcl').
    + intros lists c Hc Hl.
      apply start_body; [exact (Hcost _ c Hc) | exact Hsel | reflexivity | exact Hl].
    + split; [exact Ho|]. cbn [snd].
      destruct Hcl as [[-> Eo]|Hrest];
        [left; split; [exact Eo | reflexivity] | right; exact Hrest].
    + split.
      * intros r Hr. apply Ho', (findErase_incl _ _ _ _ E), Hr.
      * right. destruct Hcl' as [[Eo ->]|(rest' & ->)].
        -- exists []. injection Eo as E1 E2. subst first rest sel.
           unfold lowestF. cbn [fold_left app]. rewrite Z.ltb_irrefl. reflexivity.
        -- eexists. reflexivity.
  - split; [intros r [<-|[]]; simpl; lia|]. left. split; reflexivity.
  - destruct HInv as (_ & [[-> ->]|Hrest]); [|exact Hrest].
    exfalso. destruct Hexit as [[K _]|[[<-|[]] Hg]]; [discriminate|].
    apply Hne. exact Hg.
Qed.

Lemma start_record_stays_closed_witness :
  exists rest,
    [Build_NodeRecord 0%nat None 0 16; Build_NodeRecord 2%nat (Some 1%nat) 1 13]
    = Build_NodeRecord 0%nat None 0
        (value (GetHeuristicCost 0%nat 3%nat) detour) :: rest.
Proof.
  apply (start_record_stays_closed Z.eqb 4 0%nat 3%nat detour
           (Build_NodeRecord 3%nat (Some 3%nat) 30 30)).
  - exact detour_nonNegative.
  - discriminate.
  - vm_compute. reflexivity.
Defined.
